(** * distributions-etl: the pivot, flatten and last-visit passes

    A shallow embedding of the table-building, pivoting, hierarchy
    flattening and last-visit code of [distributions-etl.py], with the
    properties its specification states about them. *)

From Stdlib Require Import ZArith String Ascii List Permutation Lia.
From stdpp Require Import base option list gmap fin_maps strings.


(** ** Values, rows and tables *)

(** A cell of a database row as the driver hands it over: NULL, a number,
    text or a date (as a day number).  Python's [bool] is a subclass of
    [int] ([True == 1], same hash), so a flag such as [visited] is carried
    as [VInt].  Text is a [unicode] object: the script registers the
    driver's UNICODE types (source lines 9-10), and string literals of the
    script are ASCII, equal to and hashing like their unicode form. *)
Inductive value : Type :=
  | VNone
  | VInt (n : Z)
  | VStr (s : string)
  | VDate (d : Z).

#[global] Instance value_eq_dec : EqDecision value.
Proof. solve_decision. Defined.

Definition value_enc (v : value) : unit + (Z + (string + Z)) :=
  match v with
  | VNone => inl tt
  | VInt n => inr (inl n)
  | VStr s => inr (inr (inl s))
  | VDate d => inr (inr (inr d))
  end.

Definition value_dec (x : unit + (Z + (string + Z))) : value :=
  match x with
  | inl _ => VNone
  | inr (inl n) => VInt n
  | inr (inr (inl s)) => VStr s
  | inr (inr (inr d)) => VDate d
  end.

Lemma value_dec_enc (v : value) : value_dec (value_enc v) = v.
Proof. by destruct v. Qed.

#[global] Instance value_countable : Countable value :=
  inj_countable' value_enc value_dec value_dec_enc.

(** A row is a Python [dict] from column name to cell. *)
Abbreviation row := (gmap string value).

(** What a keyed table stores under a key: one row, or the list of rows
    that share the key (source lines 197-200). *)
Inductive entry : Type :=
  | One (r : row)
  | Many (rs : list row).

Abbreviation table := (gmap value entry).

(** The exceptions the modelled code raises.  [LookupError] and
    [StandardError] are raised by name in [rowToTable]; [KeyError] is a
    subscript on a missing key, [TypeError] and [AttributeError] come from
    an operation applied to a value of the wrong kind, and [Exception] is
    the plain exception of [dictColCopy]. *)
Inductive error : Type :=
  | LookupError (msg : string)
  | StandardError (msg : string)
  | KeyError (k : value)
  | TypeError
  | AttributeError
  | Exception (msg : string).

(** [KeyError] is a subclass of [LookupError] in Python. *)
Definition is_lookup_error (e : error) : bool :=
  match e with
  | LookupError _ | KeyError _ => true
  | _ => false
  end.

Inductive result (A : Type) : Type :=
  | Ok (a : A)
  | Err (e : error).
Arguments Ok {A} a.
Arguments Err {A} e.

Definition rbind {A B} (m : result A) (f : A → result B) : result B :=
  match m with
  | Ok a => f a
  | Err e => Err e
  end.

Notation "x ←r m ; k" := (rbind m (λ x, k))
  (at level 20, m at level 100, k at level 200, only parsing).

(** ** Record Table Builder: [rowToTable] (source lines 153-202) *)

(** [toUtf] returns its argument when it is not a byte string or is
    already unicode (lines 164-165).  Cells carry unicode text, so both
    early returns cover every value. *)
Definition toUtf (v : value) : value := v.

(** The concatenation ['Duplicate key ' + row[keyColumn] + ' found'] of
    line 187: defined on text, a [TypeError] on any other cell. *)
Definition duplicate_key_error (k : value) : error :=
  match k with
  | VStr s => StandardError ("Duplicate key " +:+ s +:+ " found")
  | _ => TypeError
  end.

(** The message of line 184 without the printed row data. *)
Definition missing_key_column_error (keyColumn : string) : error :=
  LookupError ("Key column " +:+ keyColumn +:+ " not in row data").

(** One iteration of the loop of lines 182-200. *)
Definition rowToTable_step (keyColumn : string) (allowDupes : bool)
    (tbl : table) (r : row) : result table :=
  match r !! keyColumn with
  | None => Err (missing_key_column_error keyColumn)
  | Some k =>
      let key := toUtf k in
      if negb allowDupes && bool_decide (is_Some (tbl !! k))
      then Err (duplicate_key_error k)
      else
        let asDict := toUtf <$> r in
        match tbl !! key with
        | Some (One r0) => Ok (<[key := Many [r0; asDict]]> tbl)
        | Some (Many rs) => Ok (<[key := Many (rs ++ [asDict])]> tbl)
        | None => Ok (<[key := One asDict]> tbl)
        end
  end.

Fixpoint rowToTable_loop (keyColumn : string) (allowDupes : bool)
    (rowData : list row) (tbl : table) : result table :=
  match rowData with
  | [] => Ok tbl
  | r :: rest =>
      tbl' ←r rowToTable_step keyColumn allowDupes tbl r;
      rowToTable_loop keyColumn allowDupes rest tbl'
  end.

Definition rowToTable (rowData : list row) (keyColumn : string)
    (allowDupes : bool) : result table :=
  rowToTable_loop keyColumn allowDupes rowData ∅.

(** ** Column Pivot Engine: [pivotLineItems] (source lines 585-629) *)

(** Line 613: a single line item is wrapped into a one-element list. *)
Definition records_of (liValue : entry) : list row :=
  match liValue with
  | One r => [r]
  | Many rs => rs
  end.

(** Lines 620-621: [liAsTable.get(kcVal)] then [lineItem.get(col)]; a list
    has no [get]. *)
Definition pivot_cell (liAsTable : table) (kcVal col : string) : result value :=
  match liAsTable !! VStr kcVal with
  | None => Ok VNone
  | Some (One lineItem) => Ok (default VNone (lineItem !! col))
  | Some (Many _) => Err AttributeError
  end.

(** Lines 622-624. *)
Definition pivot_colName (colRename : option (string → string))
    (kcVal col : string) : string :=
  let colName := (kcVal +:+ "_" +:+ col) in
  match colRename with
  | Some f => f colName
  | None => colName
  end.

(** The inner loop over [columns] (lines 619-625). *)
Fixpoint pivot_cols (liAsTable : table) (colRename : option (string → string))
    (kcVal : string) (columns : list string) (liDict : row) : result row :=
  match columns with
  | [] => Ok liDict
  | col :: rest =>
      theVal ←r pivot_cell liAsTable kcVal col;
      pivot_cols liAsTable colRename kcVal rest
        (<[pivot_colName colRename kcVal col := theVal]> liDict)
  end.

(** The outer loop over [keyColValues] (line 618). *)
Fixpoint pivot_keys (liAsTable : table) (colRename : option (string → string))
    (keyColValues columns : list string) (liDict : row) : result row :=
  match keyColValues with
  | [] => Ok liDict
  | kcVal :: rest =>
      liDict' ←r pivot_cols liAsTable colRename kcVal columns liDict;
      pivot_keys liAsTable colRename rest columns liDict'
  end.

(** The body of the loop over the item table (lines 612-627): the inner
    table is built with [rowToTable]'s default [allowDupes = False]. *)
Definition pivot_entry (keyColName : string) (keyColValues columns : list string)
    (colRename : option (string → string)) (liValue : entry) : result row :=
  liAsTable ←r rowToTable (records_of liValue) keyColName false;
  pivot_keys liAsTable colRename keyColValues columns ∅.

Fixpoint pivot_items (keyColName : string) (keyColValues columns : list string)
    (colRename : option (string → string)) (items : list (value * entry))
    (pivotD : table) : result table :=
  match items with
  | [] => Ok pivotD
  | (liKey, liValue) :: rest =>
      liDict ←r pivot_entry keyColName keyColValues columns colRename liValue;
      pivot_items keyColName keyColValues columns colRename rest
        (<[liKey := One liDict]> pivotD)
  end.

(** [columns] is [None] or a list; the item table is visited in the order
    of [map_to_list], standing for the unspecified order of [iteritems]. *)
Definition pivotLineItems (itemTable : table) (keyColName : string)
    (keyColValues : list string) (columns : option (list string))
    (colRename : option (string → string)) : result table :=
  match columns with
  | None => Ok itemTable
  | Some cols =>
      pivot_items keyColName keyColValues cols colRename (map_to_list itemTable) ∅
  end.

(** ** The item table as an object (source lines 607, 610 and 629) *)

(** A Python dictionary is an object reached through references, and two
    names may refer to one dictionary.  Where that matters the tables live
    in a store, from the references in use to the dictionaries they
    denote; a reference is a number. *)
Abbreviation store := (gmap nat table).

(** [d[k] = e], through the reference [d]. *)
Definition setitem (d : nat) (k : value) (e : entry) (h : store) : store :=
  alter (<[k := e]>) d h.

(** [pivotLineItems] on references.  Line 607 returns the reference it was
    given, without looking at the dictionary.  Otherwise line 610 makes a
    new dictionary, the loop fills it from the dictionary [itemTable]
    refers to, and line 629 returns the reference to it; when the loop
    raises, the new dictionary is lost with the exception.  [None] stands
    for a reference that denotes nothing, which no Python state has. *)
Definition pivotLineItems_ref (h : store) (itemTable : nat)
    (keyColName : string) (keyColValues : list string)
    (columns : option (list string)) (colRename : option (string → string))
    : option (store * result nat) :=
  match columns with
  | None => Some (h, Ok itemTable)
  | Some cols =>
      t ← h !! itemTable;
      match pivot_items keyColName keyColValues cols colRename
              (map_to_list t) ∅ with
      | Ok pivotD => let r := fresh (dom h) in Some (<[r := pivotD]> h, Ok r)
      | Err e => Some (h, Err e)
      end
  end.

(** ** Attach-to-Parent pass (source lines 421-429 and 559-582) *)

(** [dictColCopy] writes into [toDict] in place: the row as it stands when
    the call ends is returned next to the outcome. *)
Fixpoint dictColCopy (fromDict toDict : row) (keyList : list string)
    : row * result unit :=
  match keyList with
  | [] => (toDict, Ok tt)
  | key :: rest =>
      match fromDict !! key with
      | None => (toDict, Err (Exception ("Key " +:+ key +:+ " not found")))
      | Some v => dictColCopy fromDict (<[key := v]> toDict) rest
      end
  end.

(** [d.keys()], in the map's own order. *)
Definition keys (d : row) : list string := (map_to_list d).*1.

(** The closure [copyLineItemsToFacVisit] (lines 579-581). *)
Definition copyLineItemsToFacVisit (pivot : table) (facVisitD : row)
    : row * result unit :=
  match facVisitD !! "id" with
  | None => (facVisitD, Err (KeyError (VStr "id")))
  | Some fvId =>
      match pivot !! fvId with
      | None => (facVisitD, Err (KeyError fvId))
      | Some (Many _) => (facVisitD, Err AttributeError)
      | Some (One cols) => dictColCopy cols facVisitD (keys cols)
      end
  end.

(** [map(copyLineItemsToFacVisit, facVisitRows)] (line 582): the rows are
    updated in place from the first on, and the first exception ends the
    pass with the later rows untouched. *)
Fixpoint attach (pivot : table) (facVisitRows : list row)
    : list row * result unit :=
  match facVisitRows with
  | [] => ([], Ok tt)
  | r :: rest =>
      match copyLineItemsToFacVisit pivot r with
      | (r', Err e) => (r' :: rest, Err e)
      | (r', Ok _) =>
          let '(rest', out) := attach pivot rest in (r' :: rest', out)
      end
  end.

Definition mapLineItemsToFacVisits (facVisitRows : list row)
    (lineItemTable : table) (keyColName : string)
    (distinctCodeList : list string) (desiredCols : option (list string))
    (colRenameFn : string → string) : list row * result unit :=
  match pivotLineItems lineItemTable keyColName distinctCodeList desiredCols
          (Some colRenameFn) with
  | Err e => (facVisitRows, Err e)
  | Ok pivot => attach pivot facVisitRows
  end.

(** ** Hierarchy Flattener: [geoZoneFlatten] (source lines 390-400) *)

(** The [while] loop, with the number of iterations it may still make;
    [None] when that number is used up before the loop ends.  The current
    zone is whatever [geoZoneTable.get] returned: nothing, a row, or a
    list of rows (which has no string subscript). *)
Fixpoint geoZoneFlatten_loop (fuel : nat) (geoZone : option entry)
    (geoZoneTable : table) (gz : gmap value row)
    : option (result (gmap value row)) :=
  match geoZone with
  | None => Some (Ok gz)
  | Some (Many _) => Some (Err TypeError)
  | Some (One z) =>
      match fuel with
      | O => None
      | S fuel' =>
          match z !! "geo_level_code" with
          | None => Some (Err (KeyError (VStr "geo_level_code")))
          | Some lvl =>
              match z !! "parentid" with
              | None => Some (Err (KeyError (VStr "parentid")))
              | Some pid =>
                  geoZoneFlatten_loop fuel' (geoZoneTable !! pid) geoZoneTable
                    (<[lvl := z]> gz)
              end
          end
      end
  end.

Definition geoZoneFlatten (fuel : nat) (geoZone : option entry)
    (geoZoneTable : table) : option (result (gmap value row)) :=
  geoZoneFlatten_loop fuel geoZone geoZoneTable ∅.

(** ** Temporal Last-Event Calculator: [generateLastVisitDate]
    (source lines 362-387) *)

(** The key function of line 374. *)
Definition visit_code_of (r : row) : result value :=
  match r !! "visit_code" with
  | Some v => Ok v
  | None => Err (KeyError (VStr "visit_code"))
  end.

Fixpoint sort_keys (rows : list row) : result (list value) :=
  match rows with
  | [] => Ok []
  | r :: rest =>
      k ←r visit_code_of r;
      ks ←r sort_keys rest;
      Ok (k :: ks)
  end.

Definition is_date (v : value) : bool :=
  match v with VDate _ => true | _ => false end.

(** Python 2 orders [None] before numbers before text; a date is ordered
    against dates only, any other comparison with a date is a
    [TypeError]. *)
Definition value_ltb (a b : value) : bool :=
  match a, b with
  | VNone, VNone => false
  | VNone, _ => true
  | _, VNone => false
  | VInt x, VInt y => (x <? y)%Z
  | VInt _, _ => true
  | _, VInt _ => false
  | VStr x, VStr y => String.ltb x y
  | VDate x, VDate y => (x <? y)%Z
  | _, _ => false
  end.

(** A sort compares every key with some other key along a chain that
    links them all, so it raises exactly when dates and other values are
    both among the keys. *)
Definition keys_comparable (ks : list value) : bool :=
  forallb is_date ks || forallb (λ k, negb (is_date k)) ks.

Fixpoint insert_by_key (x : value * nat) (l : list (value * nat))
    : list (value * nat) :=
  match l with
  | [] => [x]
  | y :: l' =>
      if value_ltb y.1 x.1 then y :: insert_by_key x l' else x :: y :: l'
  end.

(** [sorted] is stable: a row goes in front of the later rows of the
    same key. *)
Definition sorted_positions (ks : list value) : list nat :=
  (foldr insert_by_key [] (zip ks (seq 0 (length ks)))).*2.

(** The body of the loop of lines 378-387 for the row at position [i] of
    the caller's list.  The row is written in place before its
    [visited_date] is read. *)
Definition lastVisit_step (i : nat) (st : list row * gmap value value)
    : (list row * gmap value value) * result unit :=
  let '(rows, lastVisitMap) := st in
  match rows !! i with
  | None => (st, Ok tt)
  | Some r =>
      match r !! "facility_id" with
      | None => (st, Err (KeyError (VStr "facility_id")))
      | Some mapKey =>
          let mapValue := default VNone (lastVisitMap !! mapKey) in
          let r' := <["visited_last_date" := mapValue]> r in
          let rows' := <[i := r']> rows in
          match r' !! "visited_date" with
          | None => ((rows', lastVisitMap), Err (KeyError (VStr "visited_date")))
          | Some VNone => ((rows', lastVisitMap), Ok tt)
          | Some d => ((rows', <[mapKey := d]> lastVisitMap), Ok tt)
          end
      end
  end.

Fixpoint lastVisit_loop (rowsAsc : list nat) (st : list row * gmap value value)
    : (list row * gmap value value) * result unit :=
  match rowsAsc with
  | [] => (st, Ok tt)
  | i :: rest =>
      match lastVisit_step i st with
      | (st', Err e) => (st', Err e)
      | (st', Ok _) => lastVisit_loop rest st'
      end
  end.

(** The caller's list is never written ([sorted] builds a new list); its
    rows are.  The result is the caller's list as it reads afterwards,
    with the outcome. *)
Definition generateLastVisitDate (visitRows : list row)
    : list row * result unit :=
  match sort_keys visitRows with
  | Err e => (visitRows, Err e)
  | Ok ks =>
      if keys_comparable ks
      then
        let '(st, out) := lastVisit_loop (sorted_positions ks) (visitRows, ∅) in
        (st.1, out)
      else (visitRows, Err TypeError)
  end.

(** ** The five line-item categories (source lines 439-556) *)

(** [strip_prefix pat s] is what follows [pat] when [s] starts with it. *)
Fixpoint strip_prefix (pat s : string) : option string :=
  match pat with
  | EmptyString => Some s
  | String a pat' =>
      match s with
      | EmptyString => None
      | String b s' => if Ascii.eqb a b then strip_prefix pat' s' else None
      end
  end.

(** [re.sub(pat, repl, s)] for a pattern that is plain text: every
    occurrence found scanning from the left is replaced, and the scan
    goes on after the occurrence.  [fuel] bounds the number of steps;
    the length of [s] is enough. *)
Fixpoint re_sub_go (fuel : nat) (pat repl s : string) : string :=
  match fuel with
  | O => s
  | S fuel' =>
      match strip_prefix pat s with
      | Some rest => repl +:+ re_sub_go fuel' pat repl rest
      | None =>
          match s with
          | EmptyString => EmptyString
          | String c s' => String c (re_sub_go fuel' pat repl s')
          end
      end
  end.

Definition re_sub (pat repl s : string) : string :=
  re_sub_go (String.length s) pat repl s.

(** The one pattern that is not plain text, ['(.+)\d+_targetgroup']
    (line 533). *)
Definition is_digit (c : ascii) : bool :=
  (48 <=? nat_of_ascii c)%nat && (nat_of_ascii c <=? 57)%nat.

Definition is_newline (c : ascii) : bool := Ascii.eqb c "010"%char.

Fixpoint skip_digits (s : string) : string :=
  match s with
  | EmptyString => EmptyString
  | String c s' => if is_digit c then skip_digits s' else s
  end.

(** [\d+_targetgroup] at the start of [s]: the digits are taken greedily
    and no shorter run can be followed by the underscore. *)
Definition match_digits_targetgroup (s : string) : option string :=
  match s with
  | EmptyString => None
  | String c s' =>
      if is_digit c then strip_prefix "_targetgroup" (skip_digits s') else None
  end.

(** [(.+)] followed by the rest of the pattern: the group is the longest
    run of characters other than a newline after which the rest matches.
    Returns the group and what follows the whole match. *)
Fixpoint match_group (s : string) : option (string * string) :=
  match s with
  | EmptyString => None
  | String c s' =>
      if is_newline c then None
      else
        match match_group s' with
        | Some (g, rest) => Some (String c g, rest)
        | None =>
            match match_digits_targetgroup s' with
            | Some rest => Some (String c EmptyString, rest)
            | None => None
            end
        end
  end.

(** [re.sub('(.+)\d+_targetgroup', r'\1_targetgroup', s)]. *)
Fixpoint re_sub_targetgroup_go (fuel : nat) (s : string) : string :=
  match fuel with
  | O => s
  | S fuel' =>
      match match_group s with
      | Some (g, rest) =>
          g +:+ "_targetgroup" +:+ re_sub_targetgroup_go fuel' rest
      | None =>
          match s with
          | EmptyString => EmptyString
          | String c s' => String c (re_sub_targetgroup_go fuel' s')
          end
      end
  end.

Definition re_sub_targetgroup (s : string) : string :=
  re_sub_targetgroup_go (String.length s) s.

(** A chain of substitutions, applied in order. *)
Definition re_sub_chain (rules : list (string * string)) (s : string) : string :=
  foldl (λ acc rule, re_sub rule.1 rule.2 acc) s rules.

(** [rename] of [mapEpiInvToFacVisits] (lines 450-457). *)
Definition rename_epi_inv (origColName : string) : string :=
  "epi_inventory_" +:+
  re_sub_chain
    [("quantity", ""); ("ideal", "isa"); ("bcg20", "bcg");
     ("measles10", "measles"); ("tetanus10", "tetanus"); ("yfv1", "hpv2")]
    origColName.

(** [rename] of [mapEpiUseToFacVisits] (lines 470-480). *)
Definition rename_epi_use (origColName : string) : string :=
  "epi_use_" +:+
  re_sub_chain
    [("1bcg", "bcg"); ("2bcgdil", "bcgdil"); ("2polio", "polio");
     ("3penta", "penta"); ("5measles", "measles");
     ("6measlesdil", "measlesdil"); ("4pcv10", "pcv"); ("6yfv", "hpv");
     ("8tetanus", "tetanus")]
    origColName.

(** [rename] of [mapAdultCoverageToFacVisits] (lines 493-506). *)
Definition rename_adult_cov (origColName : string) : string :=
  "adult_coverage_" +:+
  re_sub_chain
    [("MIF 15-49 years - Students", "mif_student");
     ("MIF 15-49 years - Community", "mif_community");
     ("MIF 15-49 years - Workers", "mif_worker");
     ("Students not MIF", "student"); ("Other not MIF", "other");
     ("Workers not MIF", "worker"); ("Pregnant Women", "pregnant");
     ("healthcentertetanus1", "tetanus1hc"); ("outreachtetanus1", "tetanus1mb");
     ("healthcentertetanus2to5", "tetanus25hc");
     ("outreachtetanus2to5", "tetanus25mb"); ("targetgroup", "target_group")]
    origColName.

(** The plain-text substitutions of the child coverage [rename] that come
    before the pattern of line 533; ['\(Newborn\)'] is the text
    [(Newborn)]. *)
Definition child_cov_rules : list (string * string) :=
  [("BCG", "bcg"); ("Measles", "measles"); ("PCV10 ", "pcv");
   ("Penta ", "penta"); ("Polio ", "polio"); ("(Newborn)", "0");
   ("1st dose", "1"); ("2nd dose", "2"); ("3rd dose", "3");
   ("healthcenter", "hc"); ("outreach", "mb"); ("11months", "0_11");
   ("23months", "12_23")].

(** [rename] of [mapChildCoverageToFacVisits] (lines 519-535). *)
Definition rename_child_cov (origColName : string) : string :=
  "child_coverage_" +:+
  re_sub "targetgroup" "target_group"
    (re_sub_targetgroup (re_sub_chain child_cov_rules origColName)).

Definition child_cov_vials_rules : list (string * string) :=
  [("BCG", "bcg"); ("Measles", "measles"); ("PCV", "pcv"); ("Penta", "penta");
   ("Polio", "polio"); ("openedvials", "vials_opened")].

(** [rename] of [mapChildCoverageOpenVialsToFacVisits] (lines 548-555). *)
Definition rename_child_cov_vials (origColName : string) : string :=
  "child_coverage_" +:+ re_sub_chain child_cov_vials_rules origColName.

Inductive category : Type :=
  | EpiInv
  | EpiUse
  | AdultCov
  | ChildCov
  | ChildCovVials.

#[global] Instance category_eq_dec : EqDecision category.
Proof. solve_decision. Defined.

(** [cols], [keyColName] and [rename] of each category. *)
Definition category_cols (c : category) : list string :=
  match c with
  | EpiInv =>
      ["existingquantity"; "spoiledquantity"; "deliveredquantity"; "idealquantity"]
  | EpiUse =>
      ["first_of_month"; "received"; "distributed"; "loss"; "end_of_month";
       "expiration"]
  | AdultCov =>
      ["healthcentertetanus1"; "outreachtetanus1"; "healthcentertetanus2to5";
       "outreachtetanus2to5"; "targetgroup"]
  | ChildCov =>
      ["healthcenter11months"; "outreach11months"; "healthcenter23months";
       "outreach23months"; "targetgroup"]
  | ChildCovVials => ["openedvials"]
  end.

Definition category_keyColName (c : category) : string :=
  match c with
  | EpiInv => "productcode"
  | EpiUse => "product_code"
  | AdultCov => "demographicgroup"
  | ChildCov => "vaccination"
  | ChildCovVials => "productvialname"
  end.

Definition category_rename (c : category) : string → string :=
  match c with
  | EpiInv => rename_epi_inv
  | EpiUse => rename_epi_use
  | AdultCov => rename_adult_cov
  | ChildCov => rename_child_cov
  | ChildCovVials => rename_child_cov_vials
  end.

(** What the run loads for the categories: the line-item table and the
    list of distinct key values of each. *)
Record category_inputs : Type := {
  lineItemTable : category → table;
  distinctCodes : category → list string;
}.

(** [mapEpiInvToFacVisits] and its four siblings. *)
Definition mapCategoryToFacVisits (inp : category_inputs) (c : category)
    (facVisitRows : list row) : list row * result unit :=
  mapLineItemsToFacVisits facVisitRows (lineItemTable inp c)
    (category_keyColName c) (distinctCodes inp c) (Some (category_cols c))
    (category_rename c).

(** The passes in a given order; the first exception ends the run. *)
Fixpoint run_passes (inp : category_inputs) (order : list category)
    (facVisitRows : list row) : list row * result unit :=
  match order with
  | [] => (facVisitRows, Ok tt)
  | c :: rest =>
      match mapCategoryToFacVisits inp c facVisitRows with
      | (rows', Err e) => (rows', Err e)
      | (rows', Ok _) => run_passes inp rest rows'
      end
  end.

(** The order of [loadOpenLmis] (lines 333-356). *)
Definition loadOpenLmis_order : list category :=
  [EpiInv; EpiUse; AdultCov; ChildCov; ChildCovVials].

(** ** The walk of the hierarchy, as data *)

Definition level_of (z : row) : option value := z !! "geo_level_code".

(** [walk tbl z path]: following parent pointers from [z] visits the
    nodes of [path], [z] first, and ends at a node whose parent id has
    no entry in the table.  A null parent id is such an id: the table is
    keyed by zone id and stores nothing under [None]. *)
Inductive walk (tbl : table) : row → list row → Prop :=
  | walk_root z lvl pid :
      z !! "geo_level_code" = Some lvl →
      z !! "parentid" = Some pid →
      tbl !! pid = None →
      walk tbl z [z]
  | walk_parent z lvl pid p path :
      z !! "geo_level_code" = Some lvl →
      z !! "parentid" = Some pid →
      tbl !! pid = Some (One p) →
      walk tbl p path →
      walk tbl z (z :: path).

(** The accumulation of line 397 along a path. *)
Definition flatten_path (path : list row) (gz : gmap value row) : gmap value row :=
  foldl (λ g z, match level_of z with Some lvl => <[lvl := z]> g | None => g end)
    gz path.

(** Concrete hierarchies used below. *)
Definition twin_root : row :=
  {[ "id" := VInt 1; "parentid" := VNone; "geo_level_code" := VStr "commune" ]}.
Definition twin_leaf : row :=
  {[ "id" := VInt 2; "parentid" := VInt 1; "geo_level_code" := VStr "commune" ]}.
Definition twin_table : table :=
  {[ VInt 1 := One twin_root; VInt 2 := One twin_leaf ]}.

Definition loop_zone : row :=
  {[ "id" := VInt 1; "parentid" := VInt 1; "geo_level_code" := VStr "dept" ]}.
Definition loop_table : table := {[ VInt 1 := One loop_zone ]}.

(** ** Geographic enrichment: [facilityAddGeoLevels] and the copy of the
    zone ids onto the visits (source lines 51-53, 323-331, 403-418) *)

(** The items of [GEO_LEVEL], level name and level code, in the order the
    script writes them.  [iteritems] visits them in an unspecified
    order, so the functions below take the order as an argument. *)
Definition GEO_LEVEL : list (string * string) :=
  [("district", "commune"); ("province", "dept")].

(** The inner loop of lines 415-416: every column of the zone is written
    on the facility under the level name, an underscore and the column
    name. *)
Definition add_level_columns (geoLevelName : string) (geoLevel fac : row) : row :=
  foldl (λ f kv, <[geoLevelName +:+ "_" +:+ kv.1 := kv.2]> f) fac
    (map_to_list geoLevel).

(** The loop of lines 411-416 over the levels; the facility is written in
    place. *)
Fixpoint facilityAddGeoLevels_loop (levels : list (string * string))
    (geoFlat : gmap value row) (fac : row) : row * result unit :=
  match levels with
  | [] => (fac, Ok tt)
  | (geoLevelName, geoLevelCode) :: rest =>
      match geoFlat !! VStr geoLevelCode with
      | None =>
          (fac, Err (Exception ("GeoLevelCode " +:+ geoLevelCode
                                +:+ " not in geographic level table")))
      | Some geoLevel =>
          facilityAddGeoLevels_loop rest geoFlat
            (add_level_columns geoLevelName geoLevel fac)
      end
  end.

(** [facilityAddGeoLevels], applied to a value of the facility table;
    [None] when the walk of the hierarchy does not end within [fuel]
    iterations. *)
Definition facilityAddGeoLevels (levels : list (string * string)) (fuel : nat)
    (fac : entry) (geoZoneTable : table) : option (entry * result unit) :=
  match fac with
  | Many _ => Some (fac, Err TypeError)
  | One f =>
      match f !! "geographiczoneid" with
      | None => Some (fac, Err (KeyError (VStr "geographiczoneid")))
      | Some zid =>
          match geoZoneFlatten fuel (geoZoneTable !! zid) geoZoneTable with
          | None => None
          | Some (Err e) => Some (fac, Err e)
          | Some (Ok geoFlat) =>
              let '(f', out) := facilityAddGeoLevels_loop levels geoFlat f in
              Some (One f', out)
          end
      end
  end.

(** [geoKeys] of line 330. *)
Definition geoKeys (levels : list (string * string)) : list string :=
  (λ level, level.1 +:+ "_id") <$> levels.

(** The function mapped over the visits at line 331.  A facility-table
    value that is a list contains no key, so the first key is reported
    as not found. *)
Definition copyGeoKeysToVisit (levels : list (string * string))
    (facilityTable : table) (fv : row) : row * result unit :=
  match fv !! "facility_id" with
  | None => (fv, Err (KeyError (VStr "facility_id")))
  | Some facId =>
      match facilityTable !! facId with
      | None => (fv, Err (KeyError facId))
      | Some (One fac) => dictColCopy fac fv (geoKeys levels)
      | Some (Many _) =>
          match geoKeys levels with
          | [] => (fv, Ok tt)
          | key :: _ => (fv, Err (Exception ("Key " +:+ key +:+ " not found")))
          end
      end
  end.

(** * Vocabulary of the properties *)

(** *** Vocabulary of the table builder *)

(** What the docstring of [rowToTable] promises under a key: nothing,
    the single row, or the rows in their order. *)
Definition group_entry (l : list row) : option entry :=
  match l with
  | [] => None
  | [r] => Some (One r)
  | _ => Some (Many l)
  end.

Definition has_key (keyColumn : string) (r : row) : Prop :=
  is_Some (r !! keyColumn).

Definition keys_of (keyColumn : string) (rs : list row) : list value :=
  omap (λ r, r !! keyColumn) rs.

Definition with_key (keyColumn : string) (k : value) (rs : list row) : list row :=
  filter (λ r, r !! keyColumn = Some k) rs.

(** The strict table built so far from the rows [pre]. *)
Definition strict_inv (keyColumn : string) (pre : list row) (tbl : table) : Prop :=
  ∀ k, tbl !! k = One <$> head (with_key keyColumn k pre).

(** The permissive table built so far from the rows [pre]. *)
Definition permissive_inv (keyColumn : string) (pre : list row) (tbl : table) : Prop :=
  ∀ k, tbl !! k = group_entry (with_key keyColumn k pre).

(** A sequence with a repeated key whose first record lacks the key
    column: neither mode reaches the repetition. *)
Definition rows_missing_key : list row :=
  [ ∅; {[ "code" := VStr "AAA" ]}; {[ "code" := VStr "AAA" ]} ].

Definition rows_repeated_key : list row :=
  [ {[ "code" := VStr "AAA"; "existing" := VInt 10 ]};
    {[ "code" := VStr "BBB"; "existing" := VInt 20 ]};
    {[ "code" := VStr "AAA"; "existing" := VInt 30 ]} ].

(** The (key value, source column) combinations in the order of the two
    loops. *)
Fixpoint pivot_pairs (keyColValues columns : list string) : list (string * string) :=
  match keyColValues with
  | [] => []
  | kcVal :: rest => ((λ col, (kcVal, col)) <$> columns) ++ pivot_pairs rest columns
  end.

(** The value the specification gives a combination: the source column
    of the child record with that key value, null when there is no such
    record or the record lacks the column. *)
Definition child_value (keyColName : string) (rs : list row) (kcVal col : string)
    : value :=
  match head (with_key keyColName (VStr kcVal) rs) with
  | Some r => default VNone (r !! col)
  | None => VNone
  end.

Definition pivot_cellsOf (keyColName : string) (keyColValues columns : list string)
    (colRename : option (string → string)) (rs : list row) : list (string * value) :=
  (λ p, (pivot_colName colRename p.1 p.2, child_value keyColName rs p.1 p.2))
    <$> pivot_pairs keyColValues columns.

Definition pivot_liDict (keyColName : string) (keyColValues columns : list string)
    (colRename : option (string → string)) (rs : list row) : row :=
  list_to_map (reverse (pivot_cellsOf keyColName keyColValues columns colRename rs)).

(** The records of an entry are acceptable to the strict inner build. *)
Definition entry_ok (keyColName : string) (e : entry) : Prop :=
  Forall (has_key keyColName) (records_of e)
  ∧ NoDup (keys_of keyColName (records_of e)).

(** Two key values and two source columns whose four combinations give
    three names: ["a" + "_" + "b_c"] and ["a_b" + "_" + "c"] are the same
    string. *)
Definition colliding_items : table :=
  {[ VInt 1 := One {[ "code" := VStr "a"; "b_c" := VInt 5; "c" := VInt 6 ]} ]}.

Definition sparse_items : table :=
  {[ VInt 1 := One {[ "code" := VStr "A"; "qty" := VInt 5 ]} ]}.

(** A parent with two child records of the same key value. *)
Definition duplicated_items : table :=
  {[ VInt 7 := Many [ {[ "code" := VStr "AAA"; "existing" := VInt 10 ]};
                      {[ "code" := VStr "AAA"; "existing" := VInt 30 ]} ] ]}.

(** A parent row whose id has an entry in the pivot result. *)
Definition id_present (pivotResult : gmap value row) (r : row) : Prop :=
  ∃ fvId cols, r !! "id" = Some fvId ∧ pivotResult !! fvId = Some cols.

(** The parent row with the pivoted entries of its id copied onto it. *)
Definition attached (pivotResult : gmap value row) (r : row) : row :=
  match r !! "id" with
  | Some fvId =>
      match pivotResult !! fvId with
      | Some cols => cols ∪ r
      | None => r
      end
  | None => r
  end.

#[global] Instance id_present_dec pivotResult r : Decision (id_present pivotResult r).
Proof.
  unfold id_present. destruct (r !! "id") as [fvId|].
  - destruct (pivotResult !! fvId) as [cols|] eqn:Hp.
    + left. eauto.
    + right. intros (v & c & [= <-] & Hc). congruence.
  - right. intros (v & c & Hv & _). discriminate.
Defined.

Definition visits_two : list row :=
  [ {[ "id" := VInt 1; "visit_code" := VStr "F1-2014-04" ]};
    {[ "id" := VInt 2; "visit_code" := VStr "F2-2014-04" ]} ].

Definition pivot_both : gmap value row :=
  {[ VInt 1 := {[ "epi_use_bcg_loss" := VInt 3 ]};
     VInt 2 := {[ "epi_use_bcg_loss" := VNone ]} ]}.

Definition pivot_first_only : gmap value row :=
  {[ VInt 1 := {[ "epi_use_bcg_loss" := VInt 3 ]} ]}.

(** Two rows that differ at most in [visited_last_date]. *)
Definition same_but_last_date (r r' : row) : Prop :=
  ∀ key, key ≠ "visited_last_date" → r' !! key = r !! key.

(** The sort keys of the rows, and the order of the loop: the positions
    of the caller's list in ascending order of [visit_code]. *)
Definition visit_codes (visitRows : list row) : list value :=
  omap (λ r, r !! "visit_code") visitRows.

Definition chronological (visitRows : list row) : list nat :=
  sorted_positions (visit_codes visitRows).

Definition rows_at (visitRows : list row) (positions : list nat) : list row :=
  omap (λ i, visitRows !! i) positions.

(** The date a row contributes to the history of [entity]: its visited
    date when the row is of that entity and the date is not null. *)
Definition recorded_visit (entity : value) (r : row) : option value :=
  if decide (r !! "facility_id" = Some entity)
  then match r !! "visited_date" with
       | Some VNone | None => None
       | Some d => Some d
       end
  else None.

(** The visited date of the most recent of the [earlier] rows of
    [entity] that recorded a visit, null when there is none. *)
Definition prev_visit_date (earlier : list row) (entity : value) : value :=
  default VNone (last (omap (recorded_visit entity) earlier)).

Definition visit_row_ok (r : row) : Prop :=
  is_Some (r !! "visit_code") ∧ is_Some (r !! "facility_id")
  ∧ is_Some (r !! "visited_date").

(** What holds after the loop has handled the positions [handled] of the
    caller's list [rows0]. *)
Definition loop_inv (rows0 : list row) (handled : list nat)
    (st : list row * gmap value value) : Prop :=
  Forall2 same_but_last_date rows0 st.1
  ∧ (∀ e, st.2 !! e = last (omap (recorded_visit e) (rows_at rows0 handled)))
  ∧ (∀ p i r e, handled !! p = Some i → rows0 !! i = Some r →
       r !! "facility_id" = Some e →
       ∃ r', st.1 !! i = Some r'
         ∧ r' !! "visited_last_date"
           = Some (prev_visit_date (rows_at rows0 (take p handled)) e)).

(** The history of the specification: one facility, visited in period 1
    on day 100, not visited in period 2, visited in period 3 on day 160.
    The rows come in no particular order. *)
Definition visit_p1 : row :=
  {[ "id" := VInt 1; "visit_code" := VStr "F9-2014-04"; "facility_id" := VInt 9;
     "visited" := VInt 1; "visited_date" := VDate 100;
     "visited_last_date" := VStr "2010-06-01" ]}.
Definition visit_p2 : row :=
  {[ "id" := VInt 2; "visit_code" := VStr "F9-2014-05"; "facility_id" := VInt 9;
     "visited" := VInt 0; "visited_date" := VNone;
     "visited_last_date" := VStr "2010-06-01" ]}.
Definition visit_p3 : row :=
  {[ "id" := VInt 3; "visit_code" := VStr "F9-2014-06"; "facility_id" := VInt 9;
     "visited" := VInt 1; "visited_date" := VDate 160;
     "visited_last_date" := VStr "2010-06-01" ]}.
Definition visit_history : list row := [visit_p3; visit_p1; visit_p2].

Fixpoint last_char (s : string) : option ascii :=
  match s with
  | EmptyString => None
  | String c s' =>
      match last_char s' with
      | Some x => Some x
      | None => Some c
      end
  end.

(** A character that the pattern does not contain stops no match: the
    text after it plays no part in what is found before it. *)
Fixpoint occurs (c : ascii) (s : string) : bool :=
  match s with
  | EmptyString => false
  | String x s' => Ascii.eqb x c || occurs c s'
  end.

(** The pivot result of a category, when its pivot succeeds. *)
Definition category_pivot (inp : category_inputs) (c : category) : gmap value row :=
  (λ e, pivot_liDict (category_keyColName c) (distinctCodes inp c)
          (category_cols c) (Some (category_rename c)) (records_of e))
    <$> lineItemTable inp c.

Definition pivot_succeeds (inp : category_inputs) (c : category) : Prop :=
  pivotLineItems (lineItemTable inp c) (category_keyColName c)
    (distinctCodes inp c) (Some (category_cols c)) (Some (category_rename c))
  = Ok (One <$> category_pivot inp c).

(** One pass over all rows, when it succeeds. *)
Definition attach_category (inp : category_inputs) (rows : list row) (c : category)
    : list row :=
  attached (category_pivot inp c) <$> rows.

(** One visit with line items in each of the five categories. *)
Definition sample_inputs : category_inputs := {|
  lineItemTable c :=
    match c with
    | EpiInv =>
        {[ VInt 1 := One {[ "productcode" := VStr "bcg20";
                            "existingquantity" := VInt 4;
                            "idealquantity" := VInt 9 ]} ]}
    | EpiUse =>
        {[ VInt 1 := One {[ "product_code" := VStr "1bcg"; "loss" := VInt 2 ]} ]}
    | AdultCov =>
        {[ VInt 1 := One {[ "demographicgroup" := VStr "Pregnant Women";
                            "targetgroup" := VInt 50 ]} ]}
    | ChildCov =>
        {[ VInt 1 := Many [ {[ "vaccination" := VStr "BCG";
                               "healthcenter11months" := VInt 3 ]};
                            {[ "vaccination" := VStr "Polio 1st dose";
                               "targetgroup" := VInt 7 ]} ] ]}
    | ChildCovVials =>
        {[ VInt 1 := One {[ "productvialname" := VStr "BCG";
                            "openedvials" := VInt 1 ]} ]}
    end;
  distinctCodes c :=
    match c with
    | EpiInv => ["bcg20"]
    | EpiUse => ["1bcg"]
    | AdultCov => ["Pregnant Women"]
    | ChildCov => ["BCG"; "Polio 1st dose"]
    | ChildCovVials => ["BCG"]
    end
|}.

Definition sample_visits : list row :=
  [ {[ "id" := VInt 1; "visit_code" := VStr "F1-2014-04" ]} ].

Definition sample_final : list row :=
  (run_passes sample_inputs loadOpenLmis_order sample_visits).1.


(** [may_precede x y]: a row with key and position [x] may come before
    one with key and position [y] in an ascending stable order: the key
    of [y] is not smaller, and on equal keys the position of [x] is the
    smaller one. *)
Definition may_precede (x y : value * nat) : Prop :=
  value_ltb y.1 x.1 = false ∧ (value_ltb x.1 y.1 = false → (x.2 < y.2)%nat).

Fixpoint ordered (l : list (value * nat)) : Prop :=
  match l with
  | [] => True
  | x :: l' => Forall (may_precede x) l' ∧ ordered l'
  end.

Definition rows_two_codes : list row :=
  [ {[ "code" := VStr "AAA"; "existing" := VInt 10 ]};
    {[ "code" := VStr "BBB"; "existing" := VInt 20 ]} ].

(** A commune inside a department, and a facility of the commune. *)
Definition zone_dept : row :=
  {[ "id" := VInt 10; "parentid" := VNone; "geo_level_code" := VStr "dept" ]}.
Definition zone_commune : row :=
  {[ "id" := VInt 11; "parentid" := VInt 10; "geo_level_code" := VStr "commune" ]}.
Definition zone_table : table :=
  {[ VInt 10 := One zone_dept; VInt 11 := One zone_commune ]}.
Definition facility_f1 : row :=
  {[ "id" := VInt 1; "code" := VStr "F1"; "geographiczoneid" := VInt 11 ]}.

Definition facility_f2 : row :=
  {[ "id" := VInt 2; "code" := VStr "F2"; "geographiczoneid" := VInt 10 ]}.

Definition zone_rows : list row := [zone_dept; zone_commune].

Definition facility_f1_enriched : row :=
  match facilityAddGeoLevels GEO_LEVEL 2 (One facility_f1) zone_table with
  | Some (One f, _) => f
  | _ => ∅
  end.

(** A store in which reference 3 denotes the item table whose parent has
    two child records of one key value. *)
Definition item_store : store := {[ 3%nat := duplicated_items ]}.

(** * Properties *)

(** A closed equation between two values of the model, checked by
    evaluating both sides. *)
Ltac by_computation :=
  lazymatch goal with
  | |- ?lhs = ?rhs => vm_cast_no_check (@eq_refl _ rhs)
  end.

(** ** [pivotLineItems] without a column list *)

(** The store model agrees with the pivot on values: from a reference
    that denotes [t], the call ends as the pivot of [t] does, and the
    reference it returns denotes the table the pivot of [t] returns. *)
Lemma pivotLineItems_ref_denotes (h : store) (itemTable : nat) (t : table)
    (keyColName : string) (keyColValues : list string)
    (columns : option (list string)) (colRename : option (string → string)) :
  h !! itemTable = Some t →
  match pivotLineItems t keyColName keyColValues columns colRename with
  | Ok d =>
      ∃ h' r, pivotLineItems_ref h itemTable keyColName keyColValues columns
                colRename = Some (h', Ok r)
              ∧ h' !! r = Some d
  | Err e =>
      pivotLineItems_ref h itemTable keyColName keyColValues columns colRename
      = Some (h, Err e)
  end.
Proof.
  intros Ht. destruct columns as [cols|]; simpl.
  - rewrite Ht. simpl.
    destruct (pivot_items _ _ _ _ _ _) as [d|e]; [|done].
    eexists _, _. split; [done|]. apply lookup_insert_eq.
  - by exists h, itemTable.
Qed.

(** With a column list the table returned is a new object: its reference
    was not in use, it is not the item table's, the item table is as it
    was, and a later assignment through the reference returned does not
    show in the item table. *)
Lemma pivotLineItems_ref_columns_new_object (h h' : store) (itemTable r : nat)
    (t : table) (keyColName : string) (keyColValues cols : list string)
    (colRename : option (string → string)) :
  h !! itemTable = Some t →
  pivotLineItems_ref h itemTable keyColName keyColValues (Some cols) colRename
  = Some (h', Ok r) →
  h !! r = None ∧ r ≠ itemTable ∧ h' !! itemTable = Some t
  ∧ ∀ k e, setitem r k e h' !! itemTable = Some t.
Proof.
  intros Ht Hcall. simpl in Hcall. rewrite Ht in Hcall. simpl in Hcall.
  destruct (pivot_items _ _ _ _ _ _) as [d|e]; [|done].
  injection Hcall as <- <-.
  assert (h !! fresh (dom h) = None) as Hnew
    by apply not_elem_of_dom, is_fresh.
  assert (fresh (dom h) ≠ itemTable) as Hne by congruence.
  split_and!; [done..| |].
  - by rewrite lookup_insert_ne.
  - intros k e. unfold setitem. by rewrite lookup_alter_ne, lookup_insert_ne.
Qed.

(** C9: with [columns] equal to [None] the pivot returns the item table
    itself, whatever the table (entries that the pivot proper would refuse
    included), the key column, the key universe and the rename function.
    The call ends normally in an unchanged store, and the reference it
    returns is the one it was given: it denotes the item table with its
    entries as they are, not a mapping from parent id to columns, and it
    is no copy, since an assignment made afterwards through either of the
    two references shows through the other. *)
Theorem pivotLineItems_None_returns_same_object
    (h : store) (itemTable : nat) (t : table) (keyColName : string)
    (keyColValues : list string) (colRename : option (string → string)) :
  h !! itemTable = Some t →
  ∃ r, pivotLineItems_ref h itemTable keyColName keyColValues None colRename
       = Some (h, Ok r)
     ∧ r = itemTable
     ∧ h !! r = Some t
     ∧ (∀ k e, setitem r k e h !! itemTable = Some (<[k := e]> t))
     ∧ (∀ k e, setitem itemTable k e h !! r = Some (<[k := e]> t)).
Proof.
  intros Ht. exists itemTable. split_and!; [done..| |];
    intros k e; unfold setitem; by rewrite lookup_alter_eq, Ht.
Qed.

Lemma pivotLineItems_None_returns_same_object_witness :
  item_store !! 3%nat = Some duplicated_items
  ∧ ∃ r, pivotLineItems_ref item_store 3 "code" ["AAA"] None None
         = Some (item_store, Ok r)
       ∧ r = 3%nat
       ∧ item_store !! r = Some duplicated_items
       ∧ (∀ k e, setitem r k e item_store !! 3%nat
                 = Some (<[k := e]> duplicated_items))
       ∧ (∀ k e, setitem 3 k e item_store !! r
                 = Some (<[k := e]> duplicated_items)).
Proof.
  split; [reflexivity|].
  apply (pivotLineItems_None_returns_same_object item_store 3 duplicated_items).
  reflexivity.
Defined.

(** ** [geoZoneFlatten] *)

Section flatten.
Context (tbl : table).

Lemma walk_nonempty z path : walk tbl z path → ∃ rest, path = z :: rest.
Proof. destruct 1; eauto. Qed.

Lemma geoZoneFlatten_loop_walk z path :
  walk tbl z path →
  ∀ fuel gz, (length path ≤ fuel)%nat →
    geoZoneFlatten_loop fuel (Some (One z)) tbl gz
    = Some (Ok (flatten_path path gz)).
Proof.
  induction 1 as [z lvl pid Hl Hp Hn | z lvl pid p path Hl Hp Hn Hw IH];
    intros [|fuel] gz Hf; simpl in Hf; try lia; simpl.
  - rewrite Hl, Hp, Hn. unfold flatten_path, level_of. simpl. rewrite Hl. by destruct fuel.
  - rewrite Hl, Hp, Hn. rewrite IH by lia.
    unfold flatten_path at 2, level_of. simpl. by rewrite Hl.
Qed.

Lemma walk_levels z path :
  walk tbl z path → Forall (λ n, is_Some (level_of n)) path.
Proof.
  induction 1; repeat constructor; unfold level_of; eauto.
Qed.

(** Conversely, a run that returns a mapping has walked a path. *)
Lemma geoZoneFlatten_loop_returns fuel :
  ∀ z gz gz', geoZoneFlatten_loop fuel (Some (One z)) tbl gz = Some (Ok gz') →
    ∃ path, walk tbl z path ∧ (length path ≤ fuel)%nat.
Proof.
  induction fuel as [|fuel IH]; intros z gz gz' H; simpl in H; [done|].
  destruct (z !! "geo_level_code") as [lvl|] eqn:Hl; [|done].
  destruct (z !! "parentid") as [pid|] eqn:Hp; [|done].
  destruct (tbl !! pid) as [[p|rs]|] eqn:Hn.
  - destruct (IH _ _ _ H) as (path & Hw & Hlen).
    exists (z :: path). split; [by eapply walk_parent|simpl; lia].
  - destruct fuel; done.
  - exists [z]. split; [by eapply walk_root|simpl; lia].
Qed.
End flatten.

Lemma filter_none {A} (P : A → Prop) `{!∀ x, Decision (P x)} (l : list A) :
  (∀ x, x ∈ l → ¬ P x) → filter P l = [].
Proof.
  induction l as [|x l IH]; intros HP; [done|].
  rewrite filter_cons_False by (apply HP; left).
  apply IH. intros y Hy. apply HP. by right.
Qed.

Lemma flatten_path_lookup (path : list row) (gz : gmap value row) (L : value) :
  Forall (λ n, is_Some (level_of n)) path →
  flatten_path path gz !! L
  = match last (filter (λ z, level_of z = Some L) path) with
    | Some z => Some z
    | None => gz !! L
    end.
Proof.
  revert gz. induction path as [|z path IH] using rev_ind; intros gz Hall.
  - done.
  - apply Forall_app in Hall as [Hall Hz]. apply Forall_singleton in Hz as [lvl Hl].
    unfold flatten_path. rewrite foldl_app. simpl. rewrite Hl.
    fold (flatten_path path gz). rewrite filter_app.
    rewrite filter_cons, filter_nil.
    destruct (decide (level_of z = Some L)) as [Heq|Hne].
    + rewrite last_snoc. assert (lvl = L) as -> by congruence.
      by rewrite lookup_insert_eq.
    + rewrite app_nil_r. rewrite lookup_insert_ne by congruence. by apply IH.
Qed.

(** C2, as the code has it: when the walk from the leaf visits two nodes
    with the same level label, the flattened mapping keeps, for that
    label, the one visited last (the farther from the leaf); the nearer
    one is overwritten. *)
Theorem geoZoneFlatten_keeps_farther
    (tbl : table) (leaf : row) (path : list row) (i j : nat)
    (zi zj : row) (L : value) :
  walk tbl leaf path →
  path !! i = Some zi → path !! j = Some zj → (i < j)%nat →
  level_of zi = Some L → level_of zj = Some L →
  (∀ k zk, (j < k)%nat → path !! k = Some zk → level_of zk ≠ Some L) →
  ∃ gz, geoZoneFlatten (length path) (Some (One leaf)) tbl = Some (Ok gz)
        ∧ gz !! L = Some zj.
Proof.
  intros Hw Hi Hj Hij Hli Hlj Hlast.
  exists (flatten_path path ∅). split.
  { unfold geoZoneFlatten. by apply geoZoneFlatten_loop_walk. }
  rewrite flatten_path_lookup by (by eapply walk_levels).
  rewrite <- (take_drop (S j) path).
  rewrite (take_S_r _ _ _ Hj), filter_app.
  assert (filter (λ z, level_of z = Some L) (drop (S j) path) = []) as ->.
  { apply filter_none. intros z Hz.
    apply list_elem_of_lookup in Hz as [k Hk]. rewrite lookup_drop in Hk.
    eapply Hlast; [|exact Hk]. lia. }
  rewrite app_nil_r, filter_app, filter_cons, filter_nil.
  rewrite decide_True by done. by rewrite last_snoc.
Qed.

Lemma twin_walk : walk twin_table twin_leaf [twin_leaf; twin_root].
Proof.
  eapply (walk_parent _ _ (VStr "commune") (VInt 1)); [done..|].
  by eapply (walk_root _ _ (VStr "commune") VNone).
Qed.

(** At two nodes of the same level the nearer one does not survive. *)
Lemma geoZoneFlatten_nearer_overwritten :
  geoZoneFlatten 2 (Some (One twin_leaf)) twin_table
  = Some (Ok {[ VStr "commune" := twin_root ]})
  ∧ ({[ VStr "commune" := twin_root ]} : gmap value row) !! VStr "commune"
    ≠ Some twin_leaf.
Proof.
  split; [by_computation|].
  intros Heq. apply (f_equal (λ o : option row, o ≫= (.!! "id"))) in Heq.
  vm_compute in Heq. discriminate Heq.
Qed.

Lemma geoZoneFlatten_keeps_farther_witness :
  ∃ gz, geoZoneFlatten 2 (Some (One twin_leaf)) twin_table = Some (Ok gz)
        ∧ gz !! VStr "commune" = Some twin_root.
Proof.
  apply (geoZoneFlatten_keeps_farther twin_table twin_leaf
           [twin_leaf; twin_root] 0 1 twin_leaf twin_root (VStr "commune")).
  - exact twin_walk.
  - reflexivity.
  - reflexivity.
  - lia.
  - reflexivity.
  - reflexivity.
  - intros [|[|k]] zk Hk; [lia | lia | discriminate].
Defined.

(** C7: when following parent pointers from the leaf reaches, after
    finitely many hops, a node whose parent id has no entry in the table,
    the loop ends after one iteration per node of that path and returns a
    mapping. *)
Theorem geoZoneFlatten_terminates
    (tbl : table) (leaf : row) (path : list row) (fuel : nat) :
  walk tbl leaf path →
  (length path ≤ fuel)%nat →
  ∃ gz, geoZoneFlatten fuel (Some (One leaf)) tbl = Some (Ok gz).
Proof.
  intros Hw Hf. exists (flatten_path path ∅).
  unfold geoZoneFlatten. by apply geoZoneFlatten_loop_walk.
Qed.

Lemma geoZoneFlatten_terminates_witness :
  ∃ gz, geoZoneFlatten 5 (Some (One twin_leaf)) twin_table = Some (Ok gz).
Proof.
  apply (geoZoneFlatten_terminates twin_table twin_leaf [twin_leaf; twin_root] 5).
  - exact twin_walk.
  - simpl. lia.
Defined.

(** There is no cycle check: a mapping is returned only when such a path
    exists, and on a zone that is its own parent no number of iterations
    is enough. *)
Lemma geoZoneFlatten_returns_only_on_walk
    (tbl : table) (leaf : row) (fuel : nat) (gz : gmap value row) :
  geoZoneFlatten fuel (Some (One leaf)) tbl = Some (Ok gz) →
  ∃ path, walk tbl leaf path ∧ (length path ≤ fuel)%nat.
Proof. apply geoZoneFlatten_loop_returns. Qed.

Lemma geoZoneFlatten_cycle_never_returns (fuel : nat) :
  geoZoneFlatten fuel (Some (One loop_zone)) loop_table = None.
Proof.
  unfold geoZoneFlatten. generalize (∅ : gmap value row).
  induction fuel as [|fuel IH]; intros gz; [done|].
  simpl. change (loop_zone !! "geo_level_code") with (Some (VStr "dept")).
  change (loop_zone !! "parentid") with (Some (VInt 1)).
  change (loop_table !! VInt 1) with (Some (One loop_zone)). apply IH.
Qed.

(** ** [rowToTable] *)

Section rowToTable.
Context (keyColumn : string).


Lemma toUtf_row (r : row) : toUtf <$> r = r.
Proof. apply map_fmap_id. Qed.

Lemma keys_of_snoc pre r k :
  r !! keyColumn = Some k → keys_of keyColumn (pre ++ [r]) = keys_of keyColumn pre ++ [k].
Proof. intros Hk. unfold keys_of. rewrite omap_app. simpl. by rewrite Hk. Qed.

Lemma with_key_snoc k pre r :
  with_key keyColumn k (pre ++ [r])
  = with_key keyColumn k pre ++ (if decide (r !! keyColumn = Some k) then [r] else []).
Proof. unfold with_key. by rewrite filter_app, filter_cons, filter_nil. Qed.

Lemma elem_of_keys_of k rs :
  k ∈ keys_of keyColumn rs ↔ ∃ r, r ∈ rs ∧ r !! keyColumn = Some k.
Proof. unfold keys_of. by rewrite list_elem_of_omap. Qed.

Lemma with_key_nil k rs : k ∉ keys_of keyColumn rs → with_key keyColumn k rs = [].
Proof.
  intros Hk. apply filter_none. intros r Hr Heq.
  apply Hk, elem_of_keys_of. eauto.
Qed.

(** *** Strict mode *)


Lemma strict_inv_dom pre tbl k :
  strict_inv keyColumn pre tbl → is_Some (tbl !! k) ↔ k ∈ keys_of keyColumn pre.
Proof.
  intros Hinv. rewrite (Hinv k), fmap_is_Some. split.
  - intros [r Hr]. apply head_Some_elem_of in Hr.
    apply list_elem_of_filter in Hr as [Hk Hr]. apply elem_of_keys_of. eauto.
  - intros (r & Hr & Hk)%elem_of_keys_of.
    destruct (with_key keyColumn k pre) as [|r' l] eqn:Hw; [|by eexists].
    assert (r ∈ with_key keyColumn k pre) as Hin by by apply list_elem_of_filter.
    rewrite Hw in Hin. by apply elem_of_nil in Hin.
Qed.

Lemma strict_inv_step pre tbl r k :
  strict_inv keyColumn pre tbl → r !! keyColumn = Some k → k ∉ keys_of keyColumn pre →
  strict_inv keyColumn (pre ++ [r]) (<[k := One r]> tbl).
Proof.
  intros Hinv Hk Hfresh k'. rewrite with_key_snoc.
  destruct (decide (k = k')) as [<-|Hne].
  - rewrite lookup_insert_eq, decide_True by done.
    by rewrite (with_key_nil k pre).
  - rewrite lookup_insert_ne by done.
    rewrite decide_False by congruence. by rewrite app_nil_r.
Qed.

Lemma rowToTable_step_strict pre tbl r k :
  strict_inv keyColumn pre tbl → r !! keyColumn = Some k →
  rowToTable_step keyColumn false tbl r
  = if decide (k ∈ keys_of keyColumn pre) then Err (duplicate_key_error k)
    else Ok (<[k := One r]> tbl).
Proof.
  intros Hinv Hk. unfold rowToTable_step. rewrite Hk. simpl.
  pose proof (strict_inv_dom pre tbl k Hinv) as Hdom.
  change (toUtf k) with k. rewrite toUtf_row.
  case_bool_decide as Hs; case_decide as Hd; try tauto.
  destruct (tbl !! k) eqn:Ht; [|done]. exfalso. apply Hs. eauto.
Qed.

(** Every row has the key column and no key repeats: the table is
    built, and holds each row under its key. *)
Lemma rowToTable_loop_strict_ok rs :
  ∀ pre tbl, strict_inv keyColumn pre tbl → Forall (has_key keyColumn) rs →
    NoDup (keys_of keyColumn (pre ++ rs)) →
    ∃ tbl', rowToTable_loop keyColumn false rs tbl = Ok tbl'
            ∧ strict_inv keyColumn (pre ++ rs) tbl'.
Proof.
  induction rs as [|r rs IH]; intros pre tbl Hinv Hall Hnd.
  - exists tbl. by rewrite app_nil_r.
  - apply Forall_cons in Hall as [[k Hk] Hall].
    rewrite cons_middle, (assoc_L (++)) in Hnd |- *.
    assert (k ∉ keys_of keyColumn pre) as Hfresh.
    { unfold keys_of in Hnd. rewrite omap_app in Hnd.
      apply NoDup_app in Hnd as [Hnd _].
      fold (keys_of keyColumn (pre ++ [r])) in Hnd.
      rewrite (keys_of_snoc _ _ _ Hk) in Hnd.
      apply NoDup_app in Hnd as (_ & Hd & _). intros Hin.
      apply (Hd _ Hin). by left. }
    simpl. rewrite (rowToTable_step_strict pre tbl r k Hinv Hk).
    rewrite decide_False by done. simpl.
    apply IH; [by apply strict_inv_step | done | done].
Qed.

(** The first row whose key repeats an earlier one ends the build. *)
Lemma rowToTable_loop_strict_dup pre r post k :
  ∀ tbl, Forall (has_key keyColumn) pre → NoDup (keys_of keyColumn pre) →
    r !! keyColumn = Some k → k ∈ keys_of keyColumn pre →
    strict_inv keyColumn [] tbl →
    rowToTable_loop keyColumn false (pre ++ r :: post) tbl
    = Err (duplicate_key_error k).
Proof.
  intros tbl Hall Hnd Hk Hin Hinv.
  assert (∀ done_ todo tbl0, strict_inv keyColumn done_ tbl0 → Forall (has_key keyColumn) todo →
            NoDup (keys_of keyColumn (done_ ++ todo)) → k ∈ keys_of keyColumn (done_ ++ todo) →
            rowToTable_loop keyColumn false (todo ++ r :: post) tbl0
            = Err (duplicate_key_error k)) as Hgen.
  { intros done_ todo. revert done_.
    induction todo as [|x todo IH]; intros done_ tbl0 Hi Ha Hn He.
    - rewrite app_nil_r in He. simpl.
      rewrite (rowToTable_step_strict done_ tbl0 r k Hi Hk).
      by rewrite decide_True.
    - apply Forall_cons in Ha as [[kx Hkx] Ha].
      rewrite cons_middle, (assoc_L (++)) in Hn, He.
      assert (kx ∉ keys_of keyColumn done_) as Hfresh.
      { unfold keys_of in Hn. rewrite omap_app in Hn.
        apply NoDup_app in Hn as [Hn _].
        fold (keys_of keyColumn (done_ ++ [x])) in Hn.
        rewrite (keys_of_snoc _ _ _ Hkx) in Hn.
        apply NoDup_app in Hn as (_ & Hd & _). intros Hin'.
        apply (Hd _ Hin'). by left. }
      simpl. rewrite (rowToTable_step_strict done_ tbl0 x kx Hi Hkx).
      rewrite decide_False by done. simpl.
      apply (IH (done_ ++ [x])); [by apply strict_inv_step | done..]. }
  apply (Hgen [] pre tbl); done.
Qed.

Lemma strict_inv_empty : strict_inv keyColumn [] ∅.
Proof. intros k. by rewrite lookup_empty. Qed.

(** A list with a repeated key splits at the first repetition. *)
Lemma first_repeat (rs : list row) :
  Forall (has_key keyColumn) rs → ¬ NoDup (keys_of keyColumn rs) →
  ∃ pre r post k, rs = pre ++ r :: post ∧ NoDup (keys_of keyColumn pre)
    ∧ r !! keyColumn = Some k ∧ k ∈ keys_of keyColumn pre.
Proof.
  induction rs as [|r rs IH] using rev_ind; intros Hall Hnd.
  - destruct Hnd. constructor.
  - apply Forall_app in Hall as [Hall [[k Hk] _]%Forall_cons].
    destruct (decide (NoDup (keys_of keyColumn rs))) as [Hok|Hbad].
    + exists rs, r, [], k. repeat split; [done..|].
      destruct (decide (k ∈ keys_of keyColumn rs)) as [|Hnin]; [done|].
      destruct Hnd. rewrite (keys_of_snoc _ _ _ Hk).
      apply NoDup_app. repeat split; [done| |apply NoDup_singleton].
      intros x Hx ->%list_elem_of_singleton. done.
    + destruct (IH Hall Hbad) as (pre & r' & post & k' & -> & ?).
      exists pre, r', (post ++ [r]), k'. split; [|done].
      by rewrite <- (assoc_L (++)).
Qed.

(** A build that succeeds saw the key column in every row and no key
    twice. *)
Lemma rowToTable_loop_strict_inv rs :
  ∀ pre tbl tbl', strict_inv keyColumn pre tbl → NoDup (keys_of keyColumn pre) →
    rowToTable_loop keyColumn false rs tbl = Ok tbl' →
    Forall (has_key keyColumn) rs ∧ NoDup (keys_of keyColumn (pre ++ rs)) ∧ strict_inv keyColumn (pre ++ rs) tbl'.
Proof.
  induction rs as [|r rs IH]; intros pre tbl tbl' Hinv Hnd Hrun.
  - simpl in Hrun. injection Hrun as <-. by rewrite app_nil_r.
  - simpl in Hrun. destruct (r !! keyColumn) as [k|] eqn:Hk.
    2:{ unfold rowToTable_step in Hrun. by rewrite Hk in Hrun. }
    rewrite (rowToTable_step_strict pre tbl r k Hinv Hk) in Hrun.
    case_decide as Hin; [done|]. simpl in Hrun.
    rewrite cons_middle, (assoc_L (++)).
    assert (NoDup (keys_of keyColumn (pre ++ [r]))) as Hnd1.
    { rewrite (keys_of_snoc _ _ _ Hk). apply NoDup_app.
      repeat split; [done| |apply NoDup_singleton].
      intros x Hx ->%list_elem_of_singleton. done. }
    destruct (IH (pre ++ [r]) _ _ (strict_inv_step _ _ _ _ Hinv Hk Hin) Hnd1 Hrun)
      as (Hall & Hnd' & Hinv').
    repeat split; [|done..]. constructor; [by exists k|done].
Qed.

Lemma rowToTable_loop_strict_errors rs :
  ∀ tbl e, rowToTable_loop keyColumn false rs tbl = Err e →
    e = missing_key_column_error keyColumn ∨ ∃ k, e = duplicate_key_error k.
Proof.
  induction rs as [|r rs IH]; intros tbl e Hrun; [done|].
  simpl in Hrun. unfold rowToTable_step in Hrun.
  destruct (r !! keyColumn) as [k|]; [|left; by injection Hrun].
  simpl in Hrun. case_bool_decide.
  - right. exists k. by injection Hrun.
  - destruct (tbl !! toUtf k) as [[?|?]|]; simpl in Hrun; by eapply IH.
Qed.

Lemma NoDup_keys_of_lookup rs i j ri rj k :
  NoDup (keys_of keyColumn rs) → rs !! i = Some ri → rs !! j = Some rj →
  ri !! keyColumn = Some k → rj !! keyColumn = Some k → i = j.
Proof.
  revert i j. induction rs as [|r rs IH]; intros i j Hnd Hi Hj Hki Hkj; [done|].
  assert (NoDup (keys_of keyColumn rs) ∧ (r !! keyColumn = Some k → k ∉ keys_of keyColumn rs))
    as [Hnd' Hfresh].
  { unfold keys_of in *. simpl in Hnd. destruct (r !! keyColumn) as [k'|].
    - apply NoDup_cons in Hnd as [Hn Hnd]. split; [done|]. by intros [= <-].
    - by split. }
  destruct i as [|i], j as [|j]; simpl in *.
  - done.
  - injection Hi as ->. destruct (Hfresh Hki).
    apply elem_of_keys_of. exists rj. split; [|done].
    by eapply list_elem_of_lookup_2.
  - injection Hj as ->. destruct (Hfresh Hkj).
    apply elem_of_keys_of. exists ri. split; [|done].
    by eapply list_elem_of_lookup_2.
  - f_equal. by eapply IH.
Qed.

(** *** Permissive mode *)


Lemma rowToTable_step_permissive pre tbl r k :
  permissive_inv keyColumn pre tbl → r !! keyColumn = Some k →
  ∃ tbl', rowToTable_step keyColumn true tbl r = Ok tbl'
          ∧ permissive_inv keyColumn (pre ++ [r]) tbl'.
Proof.
  intros Hinv Hk. unfold rowToTable_step. rewrite Hk. simpl.
  change (toUtf k) with k. rewrite toUtf_row.
  assert (∀ e, group_entry (with_key keyColumn k pre ++ [r]) = Some e →
            permissive_inv keyColumn (pre ++ [r]) (<[k := e]> tbl)) as Hnew.
  { intros e He k'. rewrite with_key_snoc.
    destruct (decide (k = k')) as [<-|Hne].
    - by rewrite lookup_insert_eq, decide_True.
    - rewrite lookup_insert_ne by done.
      rewrite decide_False by congruence. rewrite app_nil_r. apply Hinv. }
  rewrite (Hinv k). destruct (with_key keyColumn k pre) as [|a [|b l]]; simpl.
  - eexists. split; [done|]. by apply Hnew.
  - eexists. split; [done|]. by apply Hnew.
  - eexists. split; [done|]. apply Hnew. simpl. by destruct l.
Qed.

Lemma rowToTable_loop_permissive rs :
  ∀ pre tbl, permissive_inv keyColumn pre tbl → Forall (has_key keyColumn) rs →
    ∃ tbl', rowToTable_loop keyColumn true rs tbl = Ok tbl'
            ∧ permissive_inv keyColumn (pre ++ rs) tbl'.
Proof.
  induction rs as [|r rs IH]; intros pre tbl Hinv Hall.
  - exists tbl. by rewrite app_nil_r.
  - apply Forall_cons in Hall as [[k Hk] Hall].
    destruct (rowToTable_step_permissive pre tbl r k Hinv Hk) as (tbl1 & Hs & Hi).
    simpl. rewrite Hs. simpl. rewrite cons_middle, (assoc_L (++)). by apply IH.
Qed.

Lemma permissive_inv_empty : permissive_inv keyColumn [] ∅.
Proof. intros k. by rewrite lookup_empty. Qed.
End rowToTable.

Lemma rowToTable_missing_key_first :
  rows_missing_key !! 1%nat = Some {[ "code" := VStr "AAA" ]}
  ∧ rows_missing_key !! 2%nat = Some {[ "code" := VStr "AAA" ]}
  ∧ rowToTable rows_missing_key "code" false
    = Err (LookupError "Key column code not in row data")
  ∧ rowToTable rows_missing_key "code" true
    = Err (LookupError "Key column code not in row data").
Proof. repeat split; by_computation. Qed.

(** C5, as the code has it: for a record sequence whose records all have
    the key column and in which two records share a key value, the strict
    build fails at the first record whose key repeats an earlier one,
    with the duplicate-key error of that key (the message names it when
    it is text); the permissive build succeeds and stores under every key
    its single record, or the list of its records in their order. *)
Theorem rowToTable_duplicate_keys
    (keyColumn : string) (rowData : list row) (i j : nat) (ri rj : row)
    (k : value) :
  Forall (has_key keyColumn) rowData →
  rowData !! i = Some ri → rowData !! j = Some rj → (i < j)%nat →
  ri !! keyColumn = Some k → rj !! keyColumn = Some k →
  (∃ pre r post k0,
      rowData = pre ++ r :: post
      ∧ NoDup (keys_of keyColumn pre)
      ∧ r !! keyColumn = Some k0 ∧ k0 ∈ keys_of keyColumn pre
      ∧ rowToTable rowData keyColumn false = Err (duplicate_key_error k0)
      ∧ ∀ s, k0 = VStr s →
          rowToTable rowData keyColumn false
          = Err (StandardError ("Duplicate key " +:+ s +:+ " found")))
  ∧ (∃ tbl,
      rowToTable rowData keyColumn true = Ok tbl
      ∧ ∀ key, tbl !! key = group_entry (with_key keyColumn key rowData)).
Proof.
  intros Hall Hi Hj Hij Hki Hkj. split.
  - destruct (first_repeat keyColumn rowData Hall) as (pre & r & post & k0 & -> & Hnd & Hk0 & Hin).
    { intros Hnd. pose proof (NoDup_keys_of_lookup _ _ _ _ _ _ _ Hnd Hi Hj Hki Hkj). lia. }
    apply Forall_app in Hall as [Hpre _].
    assert (rowToTable (pre ++ r :: post) keyColumn false = Err (duplicate_key_error k0)) as Hrun.
    { unfold rowToTable.
      by apply rowToTable_loop_strict_dup; [..|apply strict_inv_empty]. }
    exists pre, r, post, k0. repeat split; [done..|].
    intros s ->. exact Hrun.
  - destruct (rowToTable_loop_permissive keyColumn rowData [] ∅
                (permissive_inv_empty keyColumn) Hall) as (tbl & Hrun & Hinv).
    exists tbl. split; [done|]. exact Hinv.
Qed.

Lemma rowToTable_duplicate_keys_witness :
  rowToTable rows_repeated_key "code" false
  = Err (StandardError "Duplicate key AAA found")
  ∧ ∃ tbl, rowToTable rows_repeated_key "code" true = Ok tbl
      ∧ tbl !! VStr "AAA"
        = Some (Many [ {[ "code" := VStr "AAA"; "existing" := VInt 10 ]};
                       {[ "code" := VStr "AAA"; "existing" := VInt 30 ]} ])
      ∧ tbl !! VStr "BBB"
        = Some (One {[ "code" := VStr "BBB"; "existing" := VInt 20 ]}).
Proof.
  destruct (rowToTable_duplicate_keys "code" rows_repeated_key 0 2
              {[ "code" := VStr "AAA"; "existing" := VInt 10 ]}
              {[ "code" := VStr "AAA"; "existing" := VInt 30 ]} (VStr "AAA"))
    as [_ (tbl & Hrun & Hlook)].
  - repeat (apply Forall_cons_2; [by eexists|]). apply Forall_nil_2.
  - reflexivity.
  - reflexivity.
  - lia.
  - reflexivity.
  - reflexivity.
  - split; [by_computation|].
    exists tbl. split; [exact Hrun|]. split; rewrite Hlook; by_computation.
Defined.

(** ** [pivotLineItems] *)

Lemma length_pivot_pairs (U C : list string) :
  length (pivot_pairs U C) = (length U * length C)%nat.
Proof.
  induction U as [|kv U IH]; [done|].
  simpl. rewrite length_app, length_fmap, IH. lia.
Qed.

Lemma elem_of_pivot_pairs (U C : list string) kv col :
  (kv, col) ∈ pivot_pairs U C ↔ kv ∈ U ∧ col ∈ C.
Proof.
  induction U as [|kv' U IH]; simpl.
  - rewrite elem_of_nil. split; [done|]. intros [[]%elem_of_nil _].
  - rewrite elem_of_app, list_elem_of_fmap, IH, elem_of_cons. split.
    + intros [(c & [= -> ->] & Hc)|[? ?]]; auto.
    + intros [[->|?] ?]; [left; eauto|right; auto].
Qed.

(** Writing a list of cells into a dictionary one after the other: the
    last write to a name stays. *)
Lemma foldl_insert_cells {K A} `{Countable K} (cells : list (K * A)) (d : gmap K A) :
  foldl (λ acc c, <[c.1 := c.2]> acc) d cells = list_to_map (reverse cells) ∪ d.
Proof.
  revert d. induction cells as [|[n v] cells IH]; intros d; simpl.
  - by rewrite (left_id_L ∅ (∪)).
  - rewrite IH, reverse_cons, list_to_map_app. simpl.
    rewrite <- (assoc_L (∪)). f_equal.
    by rewrite insert_empty, <- insert_union_singleton_l.
Qed.

Section pivot.
Context (keyColName : string) (keyColValues columns : list string)
        (colRename : option (string → string)).


Lemma pivot_cell_strict rs tbl kcVal col :
  strict_inv keyColName rs tbl →
  pivot_cell tbl kcVal col = Ok (child_value keyColName rs kcVal col).
Proof.
  intros Hinv. unfold pivot_cell, child_value. rewrite (Hinv (VStr kcVal)).
  by destruct (head _).
Qed.

Lemma pivot_cols_strict rs tbl kcVal cols liDict :
  strict_inv keyColName rs tbl →
  pivot_cols tbl colRename kcVal cols liDict
  = Ok (foldl (λ acc c, <[c.1 := c.2]> acc) liDict
          ((λ p, (pivot_colName colRename p.1 p.2, child_value keyColName rs p.1 p.2))
             <$> ((λ col, (kcVal, col)) <$> cols))).
Proof.
  intros Hinv. revert liDict. induction cols as [|col cols IH]; intros liDict.
  - done.
  - simpl. rewrite (pivot_cell_strict rs) by done. simpl. apply IH.
Qed.

Lemma pivot_keys_strict rs tbl U liDict :
  strict_inv keyColName rs tbl →
  pivot_keys tbl colRename U columns liDict
  = Ok (foldl (λ acc c, <[c.1 := c.2]> acc) liDict
          ((λ p, (pivot_colName colRename p.1 p.2, child_value keyColName rs p.1 p.2))
             <$> pivot_pairs U columns)).
Proof.
  intros Hinv. revert liDict. induction U as [|kv U IH]; intros liDict.
  - done.
  - simpl. rewrite (pivot_cols_strict rs) by done. simpl.
    rewrite IH, fmap_app, foldl_app. done.
Qed.

(** An entry either passes the strict build and gets its dictionary, or
    is refused by it. *)
Lemma pivot_entry_cases (e : entry) :
  (entry_ok keyColName e
   ∧ pivot_entry keyColName keyColValues columns colRename e
     = Ok (pivot_liDict keyColName keyColValues columns colRename (records_of e)))
  ∨ (¬ entry_ok keyColName e
     ∧ ∃ err, pivot_entry keyColName keyColValues columns colRename e = Err err
         ∧ (err = missing_key_column_error keyColName
            ∨ ∃ k, err = duplicate_key_error k)).
Proof.
  unfold pivot_entry, rowToTable.
  destruct (rowToTable_loop keyColName false (records_of e) ∅) as [tbl|err] eqn:Hrun.
  - destruct (rowToTable_loop_strict_inv keyColName (records_of e) [] ∅ tbl)
      as (Hall & Hnd & Hinv); [apply strict_inv_empty|constructor|done|].
    left. split; [by split|]. simpl.
    rewrite (pivot_keys_strict (records_of e)) by done.
    by rewrite foldl_insert_cells, (right_id_L ∅ (∪)).
  - right. split.
    + intros [Hall Hnd].
      destruct (rowToTable_loop_strict_ok keyColName (records_of e) [] ∅)
        as (tbl & Hok & _); [apply strict_inv_empty|done|done|].
      congruence.
    + exists err. split; [done|]. by eapply rowToTable_loop_strict_errors.
Qed.

Lemma pivot_items_ok (items : list (value * entry)) :
  ∀ pivotD, NoDup items.*1 → Forall (λ it, entry_ok keyColName it.2) items →
    ∃ pivotD', pivot_items keyColName keyColValues columns colRename items pivotD
               = Ok pivotD'
      ∧ (∀ pid e, (pid, e) ∈ items →
           pivotD' !! pid = Some (One (pivot_liDict keyColName keyColValues columns colRename (records_of e))))
      ∧ (∀ pid, pid ∉ items.*1 → pivotD' !! pid = pivotD !! pid).
Proof.
  induction items as [|[p e] items IH]; intros pivotD Hnd Hall.
  - exists pivotD. split; [done|]. split; [|done]. by intros ? ? ?%elem_of_nil.
  - apply NoDup_cons in Hnd as [Hp Hnd]. apply Forall_cons in Hall as [He Hall].
    destruct (pivot_entry_cases e) as [[_ Hrun]|[Hbad _]]; [|done].
    destruct (IH (<[p := One (pivot_liDict keyColName keyColValues columns colRename (records_of e))]> pivotD) Hnd Hall)
      as (D & HD & Hin & Hout).
    exists D. simpl. rewrite Hrun. simpl. split; [done|]. split.
    + intros pid e' [[= -> ->]|Hin']%elem_of_cons; [|by apply Hin].
      rewrite Hout by done. by rewrite lookup_insert_eq.
    + intros pid [Hne Hnin]%not_elem_of_cons.
      rewrite Hout by done. by rewrite lookup_insert_ne.
Qed.

Lemma pivot_items_refused (items : list (value * entry)) pid e :
  ∀ pivotD, (pid, e) ∈ items → ¬ entry_ok keyColName e →
    ∃ err, pivot_items keyColName keyColValues columns colRename items pivotD
           = Err err
      ∧ (err = missing_key_column_error keyColName
         ∨ ∃ k, err = duplicate_key_error k).
Proof.
  induction items as [|[p0 e0] items IH]; intros pivotD Hin Hbad.
  - by apply elem_of_nil in Hin.
  - simpl. destruct (pivot_entry_cases e0) as [[Hok Hrun]|[_ (err & Hrun & Hkind)]].
    + rewrite Hrun. simpl. apply elem_of_cons in Hin as [[= -> ->]|Hin]; [done|].
      by apply IH.
    + rewrite Hrun. simpl. eauto.
Qed.
End pivot.

Lemma pivotLineItems_colliding_names :
  pivotLineItems colliding_items "code" ["a"; "a_b"] (Some ["b_c"; "c"]) None
  = Ok {[ VInt 1 := One {[ "a_b_c" := VNone; "a_c" := VInt 6;
                           "a_b_b_c" := VNone ]} ]}
  ∧ size ({[ "a_b_c" := VNone; "a_c" := VInt 6; "a_b_b_c" := VNone ]} : row) = 3%nat
  ∧ (length ["a"; "a_b"] * length ["b_c"; "c"] = 4)%nat.
Proof. repeat split; by_computation. Qed.

(** C1, as the code has it: when every entry of the item table passes the
    strict inner build (each child record has the key column and no two
    child records of a parent share a key value) and the final names of
    the combinations are pairwise distinct, the pivot returns, for every
    parent id of the item table and for no other id, a column mapping
    with exactly |keyUniverse| x |sourceColumns| entries; the entry for
    (keyValue, sourceColumn) is named keyValue + "_" + sourceColumn
    passed through rename, and holds the source column of the child
    record with that key value, null when there is no such record or it
    lacks the column. *)
Theorem pivotLineItems_columns
    (itemTable : table) (keyColName : string) (keyColValues columns : list string)
    (colRename : option (string → string)) :
  (∀ pid e, itemTable !! pid = Some e → entry_ok keyColName e) →
  NoDup ((λ p, pivot_colName colRename p.1 p.2) <$> pivot_pairs keyColValues columns) →
  ∃ pivotD,
    pivotLineItems itemTable keyColName keyColValues (Some columns) colRename
    = Ok pivotD
    ∧ (∀ pid, itemTable !! pid = None → pivotD !! pid = None)
    ∧ ∀ pid e, itemTable !! pid = Some e →
        ∃ liDict, pivotD !! pid = Some (One liDict)
          ∧ size liDict = (length keyColValues * length columns)%nat
          ∧ ∀ kcVal col, kcVal ∈ keyColValues → col ∈ columns →
              liDict !! pivot_colName colRename kcVal col
              = Some (child_value keyColName (records_of e) kcVal col).
Proof.
  intros Hok Hnames. unfold pivotLineItems.
  destruct (pivot_items_ok keyColName keyColValues columns colRename
              (map_to_list itemTable) ∅) as (pivotD & Hrun & Hin & Hout).
  { apply NoDup_fst_map_to_list. }
  { apply Forall_forall. intros [pid e] Hpe%elem_of_map_to_list. by eapply Hok. }
  exists pivotD. split; [done|]. split.
  - intros pid Hnone. rewrite Hout; [done|].
    intros ([p e] & -> & Hpe%elem_of_map_to_list)%list_elem_of_fmap.
    simpl in Hnone. congruence.
  - intros pid e Hpe. exists (pivot_liDict keyColName keyColValues columns colRename (records_of e)).
    split; [by apply Hin, elem_of_map_to_list|].
    assert (NoDup (reverse (pivot_cellsOf keyColName keyColValues columns colRename
                              (records_of e))).*1) as Hnd.
    { rewrite fmap_reverse, reverse_Permutation.
      unfold pivot_cellsOf. rewrite <- list_fmap_compose. exact Hnames. }
    split.
    + unfold pivot_liDict. rewrite map_size_list_to_map by done.
      unfold pivot_cellsOf.
      by rewrite length_reverse, length_fmap, length_pivot_pairs.
    + intros kcVal col Hkv Hcol. unfold pivot_liDict.
      apply elem_of_list_to_map_1; [done|].
      apply elem_of_reverse. unfold pivot_cellsOf.
      apply list_elem_of_fmap. exists (kcVal, col). split; [done|].
      by apply elem_of_pivot_pairs.
Qed.

(** The sparse-data scenario of the specification: one parent with only
    product "A" present. *)
Lemma pivotLineItems_columns_witness :
  ∃ pivotD,
    pivotLineItems sparse_items "code" ["A"; "B"] (Some ["qty"]) None = Ok pivotD
    ∧ ∃ liDict, pivotD !! VInt 1 = Some (One liDict)
        ∧ size liDict = 2%nat
        ∧ liDict !! "A_qty" = Some (VInt 5)
        ∧ liDict !! "B_qty" = Some VNone.
Proof.
  destruct (pivotLineItems_columns sparse_items "code" ["A"; "B"] ["qty"] None)
    as (pivotD & Hrun & _ & Hrows).
  - intros pid e Hpe.
    assert (e = One {[ "code" := VStr "A"; "qty" := VInt 5 ]}) as ->.
    { unfold sparse_items in Hpe.
      apply lookup_singleton_Some in Hpe as [_ <-]. done. }
    split.
    + apply Forall_cons_2; [by eexists|]. apply Forall_nil_2.
    + vm_compute. apply NoDup_cons_2; [|apply NoDup_nil_2].
      apply not_elem_of_nil.
  - vm_compute. apply NoDup_cons_2; [|apply NoDup_singleton].
    intros Hin%list_elem_of_singleton. discriminate Hin.
  - exists pivotD. split; [exact Hrun|].
    destruct (Hrows (VInt 1) (One {[ "code" := VStr "A"; "qty" := VInt 5 ]}))
      as (liDict & Hl & Hsize & Hcells); [reflexivity|].
    exists liDict. split; [exact Hl|]. split; [exact Hsize|]. split.
    + apply (Hcells "A" "qty"); [by left | by left].
    + apply (Hcells "B" "qty"); [right; by left | by left].
Defined.

Lemma pivotLineItems_duplicate_rejected :
  pivotLineItems duplicated_items "code" ["AAA"; "BBB"] (Some ["existing"]) None
  = Err (StandardError "Duplicate key AAA found").
Proof. by_computation. Qed.

(** C3, as the code has it: when an entry of the item table has two child
    records with the same value in the pivot key column, the pivot does
    not complete: the inner table is built in strict mode and the build
    is refused, with the duplicate-key error, or with the
    missing-key-column error when a record without the key column is met
    first. *)
Theorem pivotLineItems_rejects_duplicates
    (itemTable : table) (keyColName : string) (keyColValues columns : list string)
    (colRename : option (string → string)) (pid : value) (e : entry)
    (i j : nat) (ri rj : row) (k : value) :
  itemTable !! pid = Some e →
  records_of e !! i = Some ri → records_of e !! j = Some rj → (i < j)%nat →
  ri !! keyColName = Some k → rj !! keyColName = Some k →
  ∃ err,
    pivotLineItems itemTable keyColName keyColValues (Some columns) colRename
    = Err err
    ∧ (err = missing_key_column_error keyColName
       ∨ ∃ k0, err = duplicate_key_error k0).
Proof.
  intros Hpe Hi Hj Hij Hki Hkj. unfold pivotLineItems.
  apply (pivot_items_refused _ _ _ _ _ pid e); [by apply elem_of_map_to_list|].
  intros [_ Hnd].
  pose proof (NoDup_keys_of_lookup _ _ _ _ _ _ _ Hnd Hi Hj Hki Hkj). lia.
Qed.

Lemma pivotLineItems_rejects_duplicates_witness :
  ∃ err,
    pivotLineItems duplicated_items "code" ["AAA"; "BBB"] (Some ["existing"]) None
    = Err err
    ∧ (err = missing_key_column_error "code" ∨ ∃ k0, err = duplicate_key_error k0).
Proof.
  apply (pivotLineItems_rejects_duplicates duplicated_items "code" ["AAA"; "BBB"]
           ["existing"] None (VInt 7)
           (Many [ {[ "code" := VStr "AAA"; "existing" := VInt 10 ]};
                   {[ "code" := VStr "AAA"; "existing" := VInt 30 ]} ])
           0 1 {[ "code" := VStr "AAA"; "existing" := VInt 10 ]}
           {[ "code" := VStr "AAA"; "existing" := VInt 30 ]} (VStr "AAA")).
  - reflexivity.
  - reflexivity.
  - reflexivity.
  - lia.
  - reflexivity.
  - reflexivity.
Defined.

(** ** The attach pass *)

Lemma dictColCopy_lookup (fromDict : row) (keyList : list string) :
  ∀ toDict, (∀ key, key ∈ keyList → is_Some (fromDict !! key)) →
    ∃ toDict', dictColCopy fromDict toDict keyList = (toDict', Ok tt)
      ∧ ∀ key, toDict' !! key
               = if decide (key ∈ keyList) then fromDict !! key else toDict !! key.
Proof.
  induction keyList as [|k keyList IH]; intros toDict Hkeys.
  - exists toDict. split; [done|]. intros key. by rewrite decide_False by apply not_elem_of_nil.
  - destruct (Hkeys k) as [v Hv]; [by left|].
    destruct (IH (<[k := v]> toDict)) as (d & Hrun & Hd).
    { intros key Hin. apply Hkeys. by right. }
    exists d. simpl. rewrite Hv. split; [done|]. intros key. rewrite Hd.
    destruct (decide (key ∈ keyList)) as [Hin|Hnin].
    + rewrite decide_True; [done|by right].
    + destruct (decide (key = k)) as [->|Hne].
      * rewrite decide_True by by left. by rewrite lookup_insert_eq.
      * rewrite decide_False by (intros [?|?]%elem_of_cons; done).
        by rewrite lookup_insert_ne.
Qed.

Lemma dictColCopy_keys (cols toDict : row) :
  dictColCopy cols toDict (keys cols) = (cols ∪ toDict, Ok tt).
Proof.
  assert (∀ key, key ∈ keys cols ↔ is_Some (cols !! key)) as Hk.
  { intros key. unfold keys. rewrite list_elem_of_fmap. split.
    - intros ([k v] & -> & Hkv%elem_of_map_to_list). by exists v.
    - intros [v Hv]. exists (key, v). split; [done|]. by apply elem_of_map_to_list. }
  destruct (dictColCopy_lookup cols (keys cols) toDict) as (d & Hrun & Hd).
  { intros key. apply Hk. }
  rewrite Hrun. f_equal. apply map_eq. intros key. rewrite Hd, lookup_union.
  case_decide as Hin.
  - apply Hk in Hin as [v Hv]. rewrite Hv. by destruct (toDict !! key).
  - assert (cols !! key = None) as ->.
    { apply eq_None_not_Some. by rewrite <- Hk. }
    by destruct (toDict !! key).
Qed.

Lemma copyLineItemsToFacVisit_present (pivotResult : gmap value row) (r : row) :
  id_present pivotResult r →
  copyLineItemsToFacVisit (One <$> pivotResult) r = (attached pivotResult r, Ok tt).
Proof.
  intros (fvId & cols & Hid & Hc). unfold copyLineItemsToFacVisit, attached.
  rewrite Hid, lookup_fmap, Hc. simpl. apply dictColCopy_keys.
Qed.

Lemma copyLineItemsToFacVisit_absent (pivotResult : gmap value row) (r : row) :
  ¬ id_present pivotResult r →
  copyLineItemsToFacVisit (One <$> pivotResult) r
  = (r, Err (KeyError (default (VStr "id") (r !! "id")))).
Proof.
  intros Habs. unfold copyLineItemsToFacVisit.
  destruct (r !! "id") as [fvId|] eqn:Hid; [|done].
  rewrite lookup_fmap. destruct (pivotResult !! fvId) as [cols|] eqn:Hc; [|done].
  destruct Habs. by exists fvId, cols.
Qed.

(** C6: for every list of parent rows and every pivot result, the attach
    pass succeeds when the id of every row is in the pivot result, and
    every row then carries the pivoted entries of its id; otherwise it
    stops at the first row whose id is absent (or that has no id) with a
    [KeyError], a lookup error: the rows before it are updated, that row
    and the rows after it are untouched. *)
Theorem attach_lookup_error_or_copy
    (pivotResult : gmap value row) (facVisitRows : list row) :
  (Forall (id_present pivotResult) facVisitRows →
   attach (One <$> pivotResult) facVisitRows
   = (attached pivotResult <$> facVisitRows, Ok tt))
  ∧ (∀ pre r post,
       facVisitRows = pre ++ r :: post →
       Forall (id_present pivotResult) pre →
       ¬ id_present pivotResult r →
       ∃ e, is_lookup_error e = true
         ∧ e = KeyError (default (VStr "id") (r !! "id"))
         ∧ attach (One <$> pivotResult) facVisitRows
           = ((attached pivotResult <$> pre) ++ r :: post, Err e)).
Proof.
  split.
  - induction 1 as [|r rows Hr Hall IH]; [done|].
    simpl. rewrite copyLineItemsToFacVisit_present by done. by rewrite IH.
  - intros pre r post -> Hpre Habs. eexists. split; [|split; [reflexivity|]]; [done|].
    induction Hpre as [|r0 pre Hr0 Hpre IH]; simpl.
    + by rewrite copyLineItemsToFacVisit_absent.
    + rewrite copyLineItemsToFacVisit_present by done. by rewrite IH.
Qed.

Lemma attach_lookup_error_or_copy_witness :
  attach (One <$> pivot_both) visits_two
  = ([ {[ "id" := VInt 1; "visit_code" := VStr "F1-2014-04";
          "epi_use_bcg_loss" := VInt 3 ]};
       {[ "id" := VInt 2; "visit_code" := VStr "F2-2014-04";
          "epi_use_bcg_loss" := VNone ]} ], Ok tt)
  ∧ attach (One <$> pivot_first_only) visits_two
    = ([ {[ "id" := VInt 1; "visit_code" := VStr "F1-2014-04";
            "epi_use_bcg_loss" := VInt 3 ]};
         {[ "id" := VInt 2; "visit_code" := VStr "F2-2014-04" ]} ],
       Err (KeyError (VInt 2))).
Proof.
  split.
  - rewrite (proj1 (attach_lookup_error_or_copy pivot_both visits_two)).
    + by_computation.
    + repeat (apply Forall_cons_2; [do 2 eexists; split; reflexivity|]).
      apply Forall_nil_2.
  - destruct (proj2 (attach_lookup_error_or_copy pivot_first_only visits_two)
                [ {[ "id" := VInt 1; "visit_code" := VStr "F1-2014-04" ]} ]
                {[ "id" := VInt 2; "visit_code" := VStr "F2-2014-04" ]} [])
      as (e & _ & -> & ->).
    + reflexivity.
    + apply Forall_cons_2; [do 2 eexists; split; reflexivity|]. apply Forall_nil_2.
    + intros (v & c & Hv & Hc). vm_compute in Hv. injection Hv as <-.
      vm_compute in Hc. discriminate Hc.
    + by_computation.
Defined.

(** ** [generateLastVisitDate] *)

Lemma same_but_last_date_refl r : same_but_last_date r r.
Proof. by intros key _. Qed.

Lemma same_but_last_date_trans r1 r2 r3 :
  same_but_last_date r1 r2 → same_but_last_date r2 r3 → same_but_last_date r1 r3.
Proof. intros H12 H23 key Hk. by rewrite H23, H12. Qed.

Lemma same_but_last_date_insert r v :
  same_but_last_date r (<["visited_last_date" := v]> r).
Proof. intros key Hk. by rewrite lookup_insert_ne. Qed.

Lemma Forall2_same_refl (rows : list row) : Forall2 same_but_last_date rows rows.
Proof. induction rows; constructor; [apply same_but_last_date_refl|done]. Qed.

Lemma Forall2_same_insert (rows cur : list row) i r v :
  Forall2 same_but_last_date rows cur → cur !! i = Some r →
  Forall2 same_but_last_date rows (<[i := <["visited_last_date" := v]> r]> cur).
Proof.
  intros HF Hi. apply Forall2_same_length_lookup. split.
  - rewrite length_insert. by eapply Forall2_length.
  - intros j x y Hx Hy. destruct (decide (i = j)) as [->|Hne].
    + rewrite list_lookup_insert_eq in Hy by by eapply lookup_lt_Some.
      injection Hy as <-.
      eapply same_but_last_date_trans; [|apply same_but_last_date_insert].
      by eapply Forall2_lookup_lr.
    + rewrite list_lookup_insert_ne in Hy by done. by eapply Forall2_lookup_lr.
Qed.

Lemma lastVisit_step_frame (rows : list row) i cur m :
  Forall2 same_but_last_date rows cur →
  Forall2 same_but_last_date rows (lastVisit_step i (cur, m)).1.1.
Proof.
  intros HF. unfold lastVisit_step.
  destruct (cur !! i) as [r|] eqn:Hi; [|done].
  destruct (r !! "facility_id") as [mapKey|]; [|done].
  destruct (_ !! "visited_date") as [[| | |]|]; simpl;
    by apply Forall2_same_insert.
Qed.

Lemma lastVisit_loop_frame (rows : list row) (rowsAsc : list nat) :
  ∀ cur m, Forall2 same_but_last_date rows cur →
    Forall2 same_but_last_date rows (lastVisit_loop rowsAsc (cur, m)).1.1.
Proof.
  induction rowsAsc as [|i rest IH]; intros cur m HF; [done|].
  cbn [lastVisit_loop]. pose proof (lastVisit_step_frame rows i cur m HF) as Hs.
  destruct (lastVisit_step i (cur, m)) as [[cur' m'] [[]|e]]; cbn [fst] in *.
  - by apply IH.
  - done.
Qed.

(** C10: the rows the caller's list holds after the temporal pass are, in
    number and position by position, the rows it held before, each with
    every key other than [visited_last_date] bound as before; this holds
    whether the pass ends normally or with an exception. *)
Theorem generateLastVisitDate_frame (visitRows : list row) :
  Forall2 same_but_last_date visitRows (generateLastVisitDate visitRows).1.
Proof.
  pose proof (Forall2_same_refl visitRows) as Hrefl.
  unfold generateLastVisitDate.
  destruct (sort_keys visitRows) as [ks|e]; [|done].
  destruct (keys_comparable ks); [|done].
  pose proof (lastVisit_loop_frame visitRows (sorted_positions ks) visitRows ∅ Hrefl) as HF.
  by destruct (lastVisit_loop _ _) as [[cur m] out].
Qed.

Lemma sort_keys_ok (visitRows : list row) :
  Forall visit_row_ok visitRows →
  sort_keys visitRows = Ok (visit_codes visitRows)
  ∧ length (visit_codes visitRows) = length visitRows.
Proof.
  induction 1 as [|r rows [[code Hc] _] _ [IH1 IH2]]; [done|].
  unfold visit_codes in *. simpl. unfold visit_code_of. rewrite Hc. simpl.
  rewrite IH1. simpl. split; [done|]. f_equal. exact IH2.
Qed.

Lemma insert_by_key_perm (x : value * nat) (l : list (value * nat)) :
  insert_by_key x l ≡ₚ x :: l.
Proof.
  induction l as [|y l IH]; [done|]. simpl.
  destruct (value_ltb y.1 x.1); [|done]. by rewrite IH, Permutation_swap.
Qed.

Lemma sorted_positions_perm (ks : list value) :
  sorted_positions ks ≡ₚ seq 0 (length ks).
Proof.
  unfold sorted_positions.
  assert (∀ l : list (value * nat), foldr insert_by_key [] l ≡ₚ l) as Hperm.
  { induction l as [|x l IH]; [done|]. simpl. by rewrite insert_by_key_perm, IH. }
  rewrite Hperm. rewrite snd_zip; [done|]. by rewrite length_seq.
Qed.

Lemma rows_at_snoc (rows0 : list row) handled i r0 :
  rows0 !! i = Some r0 → rows_at rows0 (handled ++ [i]) = rows_at rows0 handled ++ [r0].
Proof. intros Hi. unfold rows_at. rewrite omap_app. simpl. by rewrite Hi. Qed.

Lemma lastVisit_step_inv (rows0 : list row) handled st i r0 :
  loop_inv rows0 handled st → i ∉ handled →
  rows0 !! i = Some r0 → visit_row_ok r0 →
  ∃ st', lastVisit_step i st = (st', Ok tt) ∧ loop_inv rows0 (handled ++ [i]) st'.
Proof.
  destruct st as [cur m]. intros (HF & Hmap & Hdone) Hfresh Hi (_ & [e He] & [d Hd]).
  simpl in HF, Hmap, Hdone.
  destruct (Forall2_lookup_l _ _ _ _ _ HF Hi) as (r & Hcur & Hsame).
  assert (r !! "facility_id" = Some e) as Hre by (by rewrite Hsame).
  assert (r !! "visited_date" = Some d) as Hrd by (by rewrite Hsame).
  set (mapValue := default VNone (m !! e)).
  set (r' := <["visited_last_date" := mapValue]> r).
  assert (r' !! "visited_date" = Some d) as Hrd'.
  { unfold r'. by rewrite lookup_insert_ne. }
  assert (i < length cur)%nat as Hlt by by eapply lookup_lt_Some.
  (* the rows, whatever becomes of the map *)
  assert (∀ m', (∀ e', m' !! e' = last (omap (recorded_visit e')
                                          (rows_at rows0 (handled ++ [i])))) →
            loop_inv rows0 (handled ++ [i]) (<[i := r']> cur, m')) as Hinv.
  { intros m' Hm'. split; [by apply Forall2_same_insert|]. split; [exact Hm'|].
    simpl. intros p i' r1 e1 Hp Hi' He1.
    destruct (decide (p < length handled)%nat) as [Hlen|Hlen].
    - rewrite lookup_app_l in Hp by done.
      rewrite take_app_le by lia.
      assert (i' ≠ i) as Hne.
      { intros ->. apply Hfresh. by eapply list_elem_of_lookup_2. }
      rewrite list_lookup_insert_ne by done. by eapply Hdone.
    - assert (p = length handled) as ->.
      { apply lookup_lt_Some in Hp. rewrite length_app in Hp. simpl in Hp. lia. }
      rewrite list_lookup_middle in Hp by done. injection Hp as <-.
      rewrite take_app_length.
      assert (r1 = r0) as -> by congruence. assert (e1 = e) as -> by congruence.
      exists r'. split; [by apply list_lookup_insert_eq|].
      unfold r'. rewrite lookup_insert_eq. f_equal.
      unfold mapValue, prev_visit_date. by rewrite Hmap. }
  assert (∀ e', omap (recorded_visit e') (rows_at rows0 (handled ++ [i]))
                = omap (recorded_visit e') (rows_at rows0 handled)
                  ++ match recorded_visit e' r0 with Some x => [x] | None => [] end)
    as Hsnoc.
  { intros e'. rewrite (rows_at_snoc _ _ _ _ Hi), omap_app. simpl.
    by destruct (recorded_visit e' r0). }
  assert (d = VNone ∨ d ≠ VNone) as [->|Hvisited] by (destruct d; auto).
  - exists (<[i := r']> cur, m). split.
    + unfold lastVisit_step. rewrite Hcur, Hre. fold mapValue. fold r'. by rewrite Hrd'.
    + apply Hinv. intros e'. rewrite Hsnoc, Hmap.
      unfold recorded_visit. rewrite Hd. case_decide; by rewrite app_nil_r.
  - exists (<[i := r']> cur, <[e := d]> m). split.
    + unfold lastVisit_step. rewrite Hcur, Hre. fold mapValue. fold r'. rewrite Hrd'.
      by destruct d.
    + apply Hinv. intros e'. rewrite Hsnoc. unfold recorded_visit at 2.
      rewrite He, Hd. destruct (decide (e = e')) as [<-|Hne].
      * rewrite lookup_insert_eq, decide_True by done.
        destruct d; [done|by rewrite last_snoc..].
      * rewrite lookup_insert_ne by done. rewrite decide_False by congruence.
        by rewrite app_nil_r.
Qed.

Lemma lastVisit_loop_inv (rows0 : list row) (todo : list nat) :
  ∀ handled st, loop_inv rows0 handled st → NoDup (handled ++ todo) →
    (∀ i, i ∈ todo → ∃ r0, rows0 !! i = Some r0 ∧ visit_row_ok r0) →
    ∃ st', lastVisit_loop todo st = (st', Ok tt)
      ∧ loop_inv rows0 (handled ++ todo) st'.
Proof.
  induction todo as [|i todo IH]; intros handled st Hinv Hnd Hrows.
  - exists st. by rewrite app_nil_r.
  - destruct (Hrows i) as (r0 & Hi & Hok); [by left|].
    rewrite cons_middle, (assoc_L (++)) in Hnd |- *.
    destruct (lastVisit_step_inv rows0 handled st i r0) as (st1 & Hstep & Hinv1);
      [done| |done|done|].
    { apply NoDup_app in Hnd as [Hnd _]. apply NoDup_app in Hnd as (_ & Hd & _).
      intros Hin. apply (Hd _ Hin). by left. }
    destruct (IH (handled ++ [i]) st1 Hinv1 Hnd) as (st' & Hloop & Hinv').
    { intros j Hj. apply Hrows. by right. }
    exists st'. split; [|done]. cbn [lastVisit_loop]. by rewrite Hstep.
Qed.

(** C4: for a list of visit rows (each with its [visit_code],
    [facility_id] and [visited_date], the sort keys being comparable),
    the pass ends normally, and the row handled at place [p] of the
    ascending [visit_code] order has afterwards, as [visited_last_date],
    the visited date of the most recent row of the same facility handled
    before it whose visited date is not null, and null when there is no
    such row; a row whose visited date is null receives the running value
    and does not change it. *)
Theorem generateLastVisitDate_previous_visit
    (visitRows : list row) (p i : nat) (r : row) (entity : value) :
  Forall visit_row_ok visitRows →
  keys_comparable (visit_codes visitRows) = true →
  chronological visitRows !! p = Some i →
  visitRows !! i = Some r →
  r !! "facility_id" = Some entity →
  ∃ rows' r',
    generateLastVisitDate visitRows = (rows', Ok tt)
    ∧ rows' !! i = Some r'
    ∧ r' !! "visited_last_date"
      = Some (prev_visit_date
                (rows_at visitRows (take p (chronological visitRows))) entity).
Proof.
  intros Hall Hcmp Hp Hi He.
  destruct (sort_keys_ok visitRows Hall) as [Hkeys Hlen].
  pose proof (sorted_positions_perm (visit_codes visitRows)) as Hperm.
  fold (chronological visitRows) in Hperm.
  destruct (lastVisit_loop_inv visitRows (chronological visitRows) [] (visitRows, ∅))
    as ([rows' m'] & Hloop & (HF & Hmap & Hdone)).
  - split; [|split].
    + apply Forall2_same_refl.
    + intros e. simpl. by rewrite lookup_empty.
    + by intros [|?] ? ? ? ?.
  - simpl. rewrite Hperm. apply NoDup_seq.
  - intros j Hj. rewrite Hperm in Hj. apply elem_of_seq in Hj as [_ Hj].
    rewrite Hlen in Hj. simpl in Hj.
    destruct (lookup_lt_is_Some_2 visitRows j Hj) as [r0 Hr0].
    exists r0. split; [done|]. by eapply Forall_lookup_1.
  - simpl in Hdone. destruct (Hdone p i r entity Hp Hi He) as (r' & Hr' & Hv).
    exists rows', r'. split; [|done].
    unfold generateLastVisitDate. rewrite Hkeys, Hcmp.
    fold (chronological visitRows). by rewrite Hloop.
Qed.

Lemma visit_history_ok : Forall visit_row_ok visit_history.
Proof.
  repeat (apply Forall_cons_2; [repeat split; by eexists|]). apply Forall_nil_2.
Qed.

(** Periods 1, 2, 3 get null, day 100, day 100. *)
Lemma generateLastVisitDate_history :
  chronological visit_history = [1; 2; 0]%nat
  ∧ generateLastVisitDate visit_history
    = ([ <["visited_last_date" := VDate 100]> visit_p3;
         <["visited_last_date" := VNone]> visit_p1;
         <["visited_last_date" := VDate 100]> visit_p2 ], Ok tt).
Proof. split; by_computation. Qed.

Lemma generateLastVisitDate_previous_visit_witness :
  ∃ rows' r',
    generateLastVisitDate visit_history = (rows', Ok tt)
    ∧ rows' !! 0%nat = Some r'
    ∧ r' !! "visited_last_date" = Some (VDate 100).
Proof.
  destruct (generateLastVisitDate_previous_visit visit_history 2 0 visit_p3 (VInt 9))
    as (rows' & r' & Hrun & Hrow & Hdate).
  - exact visit_history_ok.
  - by_computation.
  - by_computation.
  - reflexivity.
  - reflexivity.
  - exists rows', r'. split; [exact Hrun|]. split; [exact Hrow|].
    rewrite Hdate. by_computation.
Defined.

(** ** Text substitution *)

Lemma string_app_nil_l (s : string) : "" +:+ s = s.
Proof. reflexivity. Qed.

Lemma string_app_cons (x : ascii) (a b : string) :
  String x a +:+ b = String x (a +:+ b).
Proof. reflexivity. Qed.

Lemma string_app_assoc (a b c : string) : (a +:+ b) +:+ c = a +:+ (b +:+ c).
Proof.
  induction a as [|x a IH]; [done|]. rewrite !string_app_cons. by rewrite IH.
Qed.

Lemma string_length_app (a b : string) :
  String.length (a +:+ b) = (String.length a + String.length b)%nat.
Proof.
  induction a as [|x a IH]; [done|]. rewrite string_app_cons. simpl. by rewrite IH.
Qed.

Lemma last_char_app (a b : string) :
  last_char (a +:+ b)
  = match last_char b with Some x => Some x | None => last_char a end.
Proof.
  induction a as [|x a IH].
  - rewrite string_app_nil_l. by destruct (last_char b).
  - rewrite string_app_cons. simpl. rewrite IH. by destruct (last_char b).
Qed.

Lemma strip_prefix_Some (pat s rest : string) :
  strip_prefix pat s = Some rest → s = pat +:+ rest.
Proof.
  revert s. induction pat as [|a pat IH]; intros s Hs; simpl in *.
  - by injection Hs as ->.
  - destruct s as [|b s]; [done|].
    destruct (Ascii.eqb a b) eqn:Hab; [|done].
    apply Ascii.eqb_eq in Hab as ->. rewrite string_app_cons. by rewrite (IH s Hs).
Qed.

Lemma strip_prefix_before (c : ascii) (pat s t : string) :
  occurs c pat = false →
  strip_prefix pat (s +:+ String c t)
  = (λ rest, rest +:+ String c t) <$> strip_prefix pat s.
Proof.
  intros Hc. revert s. induction pat as [|a pat IH]; intros s; simpl in *; [done|].
  apply orb_false_iff in Hc as [Hac Hc].
  destruct s as [|b s].
  - rewrite string_app_nil_l. by rewrite Hac.
  - rewrite string_app_cons. destruct (Ascii.eqb a b); [by apply IH|done].
Qed.

Section re_sub.
Context (pat repl : string) (Hpat : pat ≠ EmptyString).

Lemma strip_prefix_shorter (s rest : string) :
  strip_prefix pat s = Some rest → (String.length rest < String.length s)%nat.
Proof.
  intros ->%strip_prefix_Some. rewrite string_length_app.
  destruct pat; [done|]. simpl. lia.
Qed.

Lemma strip_prefix_empty : strip_prefix pat EmptyString = None.
Proof. by destruct pat. Qed.

(** More steps than the length of the text change nothing. *)
Lemma re_sub_go_fuel (n : nat) :
  ∀ m s, (String.length s ≤ n)%nat → (String.length s ≤ m)%nat →
    re_sub_go n pat repl s = re_sub_go m pat repl s.
Proof.
  induction n as [|n IH]; intros m s Hn Hm.
  - destruct s; [|simpl in Hn; lia]. destruct m; [done|].
    simpl. by rewrite strip_prefix_empty.
  - destruct m as [|m].
    + destruct s; [|simpl in Hm; lia]. simpl. by rewrite strip_prefix_empty.
    + simpl. destruct (strip_prefix pat s) as [rest|] eqn:Hs.
      * apply strip_prefix_shorter in Hs. f_equal. apply IH; lia.
      * destruct s as [|c s]; [done|]. simpl in Hn, Hm. f_equal. apply IH; lia.
Qed.

Lemma re_sub_go_split (c : ascii) (t : string) :
  occurs c pat = false →
  ∀ n s, (String.length s ≤ n)%nat →
    re_sub_go (n + S (String.length t)) pat repl (s +:+ String c t)
    = re_sub_go n pat repl s +:+ String c (re_sub_go (String.length t) pat repl t).
Proof.
  intros Hc.
  assert (∀ k, (String.length t ≤ k)%nat →
            re_sub_go (S k) pat repl (String c t)
            = String c (re_sub_go (String.length t) pat repl t)) as Hstop.
  { intros k Hk. simpl.
    assert (strip_prefix pat (String c t) = None) as ->.
    { destruct pat as [|a p]; [done|]. simpl in *.
      apply orb_false_iff in Hc as [-> _]. done. }
    f_equal. by apply re_sub_go_fuel. }
  induction n as [|n IH]; intros s Hn.
  - destruct s; [|simpl in Hn; lia]. rewrite string_app_nil_l.
    change (0 + S (String.length t))%nat with (S (String.length t)).
    rewrite Hstop by lia. done.
  - destruct s as [|x s].
    + rewrite string_app_nil_l.
      replace (S n + S (String.length t))%nat
        with (S (S n + String.length t)) by lia.
      rewrite Hstop by lia. simpl. by rewrite strip_prefix_empty.
    + replace (S n + S (String.length t))%nat
        with (S (n + S (String.length t))) by lia.
      cbn [re_sub_go]. rewrite (strip_prefix_before c) by done.
      destruct (strip_prefix pat (String x s)) as [rest|] eqn:Hs; simpl.
      * apply strip_prefix_shorter in Hs. simpl in Hs, Hn.
        rewrite IH by lia. by rewrite string_app_assoc.
      * simpl in Hn. rewrite string_app_cons. f_equal. apply IH. lia.
Qed.

Lemma re_sub_split (c : ascii) (s t : string) :
  occurs c pat = false →
  re_sub pat repl (s +:+ String c t)
  = re_sub pat repl s +:+ String c (re_sub pat repl t).
Proof.
  intros Hc. unfold re_sub. rewrite string_length_app. simpl.
  by apply re_sub_go_split.
Qed.

(** When the pattern and its replacement end alike, so do the text and
    its image. *)
Lemma re_sub_go_last (n : nat) :
  last_char pat = last_char repl →
  ∀ s, last_char (re_sub_go n pat repl s) = last_char s.
Proof.
  intros Hlast. induction n as [|n IH]; intros s; [done|].
  simpl. destruct (strip_prefix pat s) as [rest|] eqn:Hs.
  - apply strip_prefix_Some in Hs as ->.
    rewrite !last_char_app, IH, Hlast. done.
  - destruct s as [|x s]; [done|]. simpl. by rewrite IH.
Qed.
End re_sub.

Lemma re_sub_chain_split (rules : list (string * string)) (s t : string) :
  Forall (λ rule, rule.1 ≠ EmptyString ∧ occurs "_" rule.1 = false) rules →
  re_sub_chain rules (s +:+ String "_" t)
  = re_sub_chain rules s +:+ String "_" (re_sub_chain rules t).
Proof.
  intros Hrules. revert s t.
  induction Hrules as [|[pat repl] rules [Hne Hocc] _ IH]; intros s t; [done|].
  unfold re_sub_chain in *. simpl in *. rewrite re_sub_split by done. apply IH.
Qed.

(** The pattern of line 533. *)
Lemma skip_digits_suffix (s : string) : ∃ ds, s = ds +:+ skip_digits s.
Proof.
  induction s as [|c s [ds IH]]; [by exists EmptyString|].
  simpl. destruct (is_digit c).
  - exists (String c ds). rewrite string_app_cons. by rewrite <- IH.
  - by exists EmptyString.
Qed.

Lemma match_group_Some (s g rest : string) :
  match_group s = Some (g, rest) →
  ∃ mid, s = g +:+ mid +:+ rest ∧ last_char mid = Some "p"%char.
Proof.
  revert g rest. induction s as [|c s IH]; intros g rest Hm; [done|].
  simpl in Hm. destruct (is_newline c); [done|].
  destruct (match_group s) as [[g' rest']|].
  - injection Hm as <- <-. destruct (IH g' rest' eq_refl) as (mid & -> & Hmid).
    by exists mid.
  - unfold match_digits_targetgroup in Hm.
    destruct s as [|d s]; [done|]. destruct (is_digit d); [|done].
    destruct (strip_prefix "_targetgroup" (skip_digits s)) as [r|] eqn:Hs; [|done].
    injection Hm as <- <-. apply strip_prefix_Some in Hs.
    destruct (skip_digits_suffix s) as [ds Hds]. rewrite Hs in Hds.
    exists (String d ds +:+ "_targetgroup"). split.
    + rewrite string_app_cons, string_app_nil_l, string_app_assoc, string_app_cons.
      by rewrite <- Hds.
    + by rewrite last_char_app.
Qed.

Lemma re_sub_targetgroup_go_last (n : nat) :
  ∀ s, last_char (re_sub_targetgroup_go n s) = last_char s.
Proof.
  induction n as [|n IH]; intros s; [done|].
  simpl. destruct (match_group s) as [[g rest]|] eqn:Hm.
  - apply match_group_Some in Hm as (mid & -> & Hmid).
    rewrite !last_char_app, IH, Hmid. simpl. by destruct (last_char rest).
  - destruct s as [|x s]; [done|]. simpl. by rewrite IH.
Qed.

(** ** The names written by the five categories *)

Lemma rules_without_underscore_child_cov :
  Forall (λ rule : string * string,
            rule.1 ≠ EmptyString ∧ occurs "_" rule.1 = false) child_cov_rules.
Proof. repeat (apply Forall_cons_2; [by split|]). apply Forall_nil_2. Qed.

Lemma rules_without_underscore_child_cov_vials :
  Forall (λ rule : string * string,
            rule.1 ≠ EmptyString ∧ occurs "_" rule.1 = false) child_cov_vials_rules.
Proof. repeat (apply Forall_cons_2; [by split|]). apply Forall_nil_2. Qed.

(** An opened-vials name ends in the [d] of [vials_opened]. *)
Lemma rename_child_cov_vials_last (kcVal : string) :
  last_char (rename_child_cov_vials (kcVal +:+ "_" +:+ "openedvials")) = Some "d"%char.
Proof.
  unfold rename_child_cov_vials.
  change ("_" +:+ "openedvials") with (String "_" "openedvials").
  rewrite re_sub_chain_split by apply rules_without_underscore_child_cov_vials.
  rewrite !last_char_app. by_computation.
Qed.

(** A child coverage name ends in the [1] of [0_11], the [3] of [12_23]
    or the [p] of [target_group]. *)
Lemma rename_child_cov_last (kcVal col : string) :
  col ∈ category_cols ChildCov →
  last_char (rename_child_cov (kcVal +:+ "_" +:+ col)) ≠ Some "d"%char.
Proof.
  intros Hcol. unfold rename_child_cov. rewrite last_char_app.
  unfold re_sub, re_sub_targetgroup.
  rewrite re_sub_go_last by done. rewrite re_sub_targetgroup_go_last.
  change ("_" +:+ col) with (String "_" col).
  rewrite re_sub_chain_split by apply rules_without_underscore_child_cov.
  rewrite last_char_app.
  simpl in Hcol. repeat (apply elem_of_cons in Hcol as [->|Hcol]);
    [vm_compute; discriminate..|by apply elem_of_nil in Hcol].
Qed.

Lemma category_rename_not_id (c : category) (x : string) :
  category_rename c x ≠ "id".
Proof. destruct c; intros H; discriminate H. Qed.

(** No name is written by two categories. *)
Lemma category_names_disjoint (a b : category) (kv col kv' col' : string) :
  a ≠ b → col ∈ category_cols a → col' ∈ category_cols b →
  category_rename a (kv +:+ "_" +:+ col) ≠ category_rename b (kv' +:+ "_" +:+ col').
Proof.
  intros Hab Hcol Hcol' Heq.
  destruct a, b; try done; try discriminate Heq.
  - apply (rename_child_cov_last kv col Hcol).
    simpl in Heq, Hcol'. apply list_elem_of_singleton in Hcol' as ->.
    rewrite Heq. apply rename_child_cov_vials_last.
  - apply (rename_child_cov_last kv' col' Hcol').
    simpl in Heq, Hcol. apply list_elem_of_singleton in Hcol as ->.
    rewrite <- Heq. apply rename_child_cov_vials_last.
Qed.

(** ** The five passes *)

Lemma pivot_items_Ok_inv keyColName keyColValues columns colRename
    (items : list (value * entry)) :
  ∀ pivotD pivotD',
    pivot_items keyColName keyColValues columns colRename items pivotD = Ok pivotD' →
    Forall (λ it, entry_ok keyColName it.2) items.
Proof.
  induction items as [|[p e] items IH]; intros pivotD pivotD' Hrun; [done|].
  simpl in Hrun.
  destruct (pivot_entry_cases keyColName keyColValues columns colRename e)
    as [[Hok Hentry]|[_ (err & Hentry & _)]]; rewrite Hentry in Hrun; [|done].
  simpl in Hrun. apply Forall_cons_2; [done|]. by eapply IH.
Qed.

Lemma pivotLineItems_Ok_shape (itemTable : table) keyColName keyColValues columns
    colRename (pivotD : table) :
  pivotLineItems itemTable keyColName keyColValues (Some columns) colRename
  = Ok pivotD →
  pivotD = One <$> ((λ e, pivot_liDict keyColName keyColValues columns colRename
                            (records_of e)) <$> itemTable).
Proof.
  unfold pivotLineItems. intros Hrun.
  pose proof (pivot_items_Ok_inv _ _ _ _ _ _ _ Hrun) as Hall.
  destruct (pivot_items_ok keyColName keyColValues columns colRename
              (map_to_list itemTable) ∅ (NoDup_fst_map_to_list _) Hall)
    as (D & HD & Hin & Hout).
  assert (D = pivotD) as -> by congruence.
  apply map_eq. intros pid. rewrite !lookup_fmap.
  destruct (itemTable !! pid) as [e|] eqn:Hpe; simpl.
  - by apply Hin, elem_of_map_to_list.
  - rewrite Hout; [done|].
    intros ([p e] & -> & Hp%elem_of_map_to_list)%list_elem_of_fmap.
    simpl in Hpe. congruence.
Qed.

Lemma category_pivot_names (inp : category_inputs) (c : category) pid cols name :
  category_pivot inp c !! pid = Some cols → is_Some (cols !! name) →
  ∃ kv col, col ∈ category_cols c
    ∧ name = category_rename c (kv +:+ "_" +:+ col).
Proof.
  unfold category_pivot. rewrite lookup_fmap. intros Hc [v Hv].
  destruct (lineItemTable inp c !! pid) as [e|]; [|done]. injection Hc as <-.
  unfold pivot_liDict in Hv. apply elem_of_list_to_map_2 in Hv.
  rewrite elem_of_reverse in Hv. unfold pivot_cellsOf in Hv.
  apply list_elem_of_fmap in Hv as ([kv col] & [= -> _] & Hp).
  apply elem_of_pivot_pairs in Hp as [_ Hcol]. by exists kv, col.
Qed.

Lemma attach_Ok (pivotResult : gmap value row) (rows rows' : list row) :
  attach (One <$> pivotResult) rows = (rows', Ok tt)
  ↔ Forall (id_present pivotResult) rows ∧ rows' = attached pivotResult <$> rows.
Proof.
  split.
  - revert rows'. induction rows as [|r rows IH]; intros rows' Hrun.
    + by injection Hrun as <-.
    + simpl in Hrun. destruct (decide (id_present pivotResult r)) as [Hr|Hr].
      * rewrite copyLineItemsToFacVisit_present in Hrun by done.
        destruct (attach (One <$> pivotResult) rows) as [rest out] eqn:Hrest.
        injection Hrun as <- ->. destruct (IH rest eq_refl) as [Hall ->].
        split; [by constructor|done].
      * by rewrite copyLineItemsToFacVisit_absent in Hrun.
  - intros [Hall ->]. induction Hall as [|r rows Hr Hall IH]; [done|].
    simpl. rewrite copyLineItemsToFacVisit_present by done. by rewrite IH.
Qed.

Lemma mapCategoryToFacVisits_Ok (inp : category_inputs) (c : category)
    (rows rows' : list row) :
  mapCategoryToFacVisits inp c rows = (rows', Ok tt)
  ↔ pivot_succeeds inp c
    ∧ Forall (id_present (category_pivot inp c)) rows
    ∧ rows' = attach_category inp rows c.
Proof.
  unfold mapCategoryToFacVisits, mapLineItemsToFacVisits, pivot_succeeds,
    attach_category.
  destruct (pivotLineItems _ _ _ _ _) as [pivotD|err] eqn:Hpivot.
  - apply pivotLineItems_Ok_shape in Hpivot as ->. fold (category_pivot inp c).
    rewrite attach_Ok. split; [by intros [? ?]|by intros (_ & ? & ?)].
  - split; [done|]. by intros [? _].
Qed.

Lemma attached_unfold (pivotResult : gmap value row) (r : row) fvId :
  r !! "id" = Some fvId →
  attached pivotResult r
  = match pivotResult !! fvId with Some cols => cols ∪ r | None => r end.
Proof. intros Hid. unfold attached. by rewrite Hid. Qed.

Lemma attached_id (inp : category_inputs) (c : category) (r : row) :
  attached (category_pivot inp c) r !! "id" = r !! "id".
Proof.
  unfold attached. destruct (r !! "id") as [fvId|] eqn:Hid; [|done].
  destruct (category_pivot inp c !! fvId) as [cols|] eqn:Hc; [|done].
  rewrite lookup_union_r; [done|]. apply eq_None_not_Some. intros Hsome.
  destruct (category_pivot_names inp c fvId cols "id" Hc Hsome) as (kv & col & _ & Heq).
  by eapply category_rename_not_id.
Qed.

Lemma id_present_attached (inp : category_inputs) (c : category)
    (pivotResult : gmap value row) (r : row) :
  id_present pivotResult (attached (category_pivot inp c) r)
  ↔ id_present pivotResult r.
Proof. unfold id_present. by rewrite attached_id. Qed.

Lemma category_pivot_disjoint (inp : category_inputs) (a b : category) pa pb ca cb :
  a ≠ b → category_pivot inp a !! pa = Some ca → category_pivot inp b !! pb = Some cb →
  ca ##ₘ cb.
Proof.
  intros Hab Ha Hb. apply map_disjoint_spec. intros name x y Hx Hy.
  destruct (category_pivot_names inp a pa ca name Ha) as (kv & col & Hcol & Hn);
    [by eexists|].
  destruct (category_pivot_names inp b pb cb name Hb) as (kv' & col' & Hcol' & Hn');
    [by eexists|].
  apply (category_names_disjoint a b kv col kv' col' Hab Hcol Hcol'). congruence.
Qed.

(** Attaching the columns of two categories to a row gives the same row
    in either order. *)
Lemma attached_comm (inp : category_inputs) (a b : category) (r : row) :
  a ≠ b →
  attached (category_pivot inp b) (attached (category_pivot inp a) r)
  = attached (category_pivot inp a) (attached (category_pivot inp b) r).
Proof.
  intros Hab. destruct (r !! "id") as [fvId|] eqn:Hid.
  - rewrite (attached_unfold _ (attached (category_pivot inp a) r) fvId)
      by by rewrite attached_id.
    rewrite (attached_unfold _ (attached (category_pivot inp b) r) fvId)
      by by rewrite attached_id.
    rewrite !(attached_unfold _ r fvId) by done.
    destruct (category_pivot inp a !! fvId) as [ca|] eqn:Ha;
      destruct (category_pivot inp b !! fvId) as [cb|] eqn:Hb; try done.
    rewrite !(assoc_L (∪)). f_equal. apply map_union_comm.
    symmetry. by eapply category_pivot_disjoint.
  - unfold attached. rewrite Hid. by rewrite Hid.
Qed.

Lemma run_passes_Ok (inp : category_inputs) (order : list category) :
  ∀ rows rows',
    run_passes inp order rows = (rows', Ok tt)
    ↔ (∀ c, c ∈ order →
         pivot_succeeds inp c ∧ Forall (id_present (category_pivot inp c)) rows)
      ∧ rows' = foldl (attach_category inp) rows order.
Proof.
  induction order as [|c order IH]; intros rows rows'.
  - simpl. split.
    + intros [= <-]. split; [|done]. by intros c ?%elem_of_nil.
    + by intros [_ ->].
  - cbn [run_passes foldl].
    assert (∀ c', Forall (id_present (category_pivot inp c')) (attach_category inp rows c)
                  ↔ Forall (id_present (category_pivot inp c')) rows) as Hids.
    { intros c'. unfold attach_category. rewrite Forall_fmap.
      apply Forall_proper; [|done]. intros r. apply id_present_attached. }
    destruct (mapCategoryToFacVisits inp c rows) as [rows1 [[]|err]] eqn:Hpass.
    + apply mapCategoryToFacVisits_Ok in Hpass as (Hpiv & Hall & ->).
      rewrite IH. split.
      * intros [Hrest ->]. split; [|done].
        intros c' [->|Hin]%elem_of_cons; [done|].
        destruct (Hrest c' Hin) as [? ?]. split; [done|]. by apply Hids.
      * intros [Hrest ->]. split; [|done]. intros c' Hin.
        destruct (Hrest c') as [? ?]; [by right|]. split; [done|]. by apply Hids.
    + split; [done|]. intros [Hrest _]. destruct (Hrest c) as [Hpiv Hall]; [by left|].
      assert (mapCategoryToFacVisits inp c rows
              = (attach_category inp rows c, Ok tt)) as Hok
        by by apply mapCategoryToFacVisits_Ok.
      congruence.
Qed.

Lemma foldl_attach_category_perm (inp : category_inputs) (l1 l2 : list category) :
  l1 ≡ₚ l2 → NoDup l1 →
  ∀ rows, foldl (attach_category inp) rows l1 = foldl (attach_category inp) rows l2.
Proof.
  induction 1 as [|x l l' _ IH|x y l|l l' l'' H1 IH1 H2 IH2]; intros Hnd rows.
  - done.
  - apply NoDup_cons in Hnd as [_ Hnd]. simpl. by apply IH.
  - apply NoDup_cons in Hnd as [Hy _]. simpl. f_equal.
    unfold attach_category. rewrite <- !list_fmap_compose.
    apply list_fmap_ext. intros _ r _. simpl. apply attached_comm.
    intros ->. apply Hy. by left.
  - rewrite IH1 by done. apply IH2. by rewrite <- H1.
Qed.

Lemma NoDup_loadOpenLmis_order : NoDup loadOpenLmis_order.
Proof.
  apply (bool_decide_unpack (NoDup loadOpenLmis_order)). vm_compute. exact I.
Qed.

(** C8: for every collection of visit rows and every input of the five
    categories, two runs of the five pivot-and-attach passes that differ
    only in the order of the passes end alike: one completes with given
    final visit rows exactly when the other completes with the same rows
    (and so one is stopped by an exception exactly when the other is).
    The names written by distinct categories are distinct
    ([category_names_disjoint]). *)
Theorem passes_commute
    (inp : category_inputs) (facVisitRows : list row)
    (order1 order2 : list category) (rows' : list row) :
  order1 ≡ₚ loadOpenLmis_order →
  order2 ≡ₚ loadOpenLmis_order →
  run_passes inp order1 facVisitRows = (rows', Ok tt)
  ↔ run_passes inp order2 facVisitRows = (rows', Ok tt).
Proof.
  intros H1 H2. rewrite !run_passes_Ok.
  assert (order1 ≡ₚ order2) as H12 by by rewrite H1, H2.
  rewrite (foldl_attach_category_perm inp order1 order2 H12)
    by (rewrite H1; apply NoDup_loadOpenLmis_order).
  by setoid_rewrite H12.
Qed.

Lemma passes_commute_witness :
  run_passes sample_inputs (reverse loadOpenLmis_order) sample_visits
  = (sample_final, Ok tt)
  ∧ ∃ r, sample_final !! 0%nat = Some r
      ∧ size r = 28%nat
      ∧ r !! "epi_inventory_bcg_isa" = Some (VInt 9)
      ∧ r !! "epi_use_bcg_loss" = Some (VInt 2)
      ∧ r !! "adult_coverage_pregnant_target_group" = Some (VInt 50)
      ∧ r !! "child_coverage_bcg_hc0_11" = Some (VInt 3)
      ∧ r !! "child_coverage_polio_target_group" = Some (VInt 7)
      ∧ r !! "child_coverage_bcg_vials_opened" = Some (VInt 1).
Proof.
  split.
  - apply (proj1 (passes_commute sample_inputs sample_visits loadOpenLmis_order
                    (reverse loadOpenLmis_order) sample_final
                    (reflexivity _) (reverse_Permutation _))).
    by_computation.
  - exists (default ∅ (sample_final !! 0%nat)).
    repeat split; by_computation.
Defined.

(** * Further properties of the code *)

(** ** [rowToTable]: when it succeeds and what it raises *)

Lemma with_key_NoDup (keyColumn : string) (k : value) (rs : list row) :
  NoDup (keys_of keyColumn rs) →
  with_key keyColumn k rs = [] ∨ ∃ r, with_key keyColumn k rs = [r].
Proof.
  induction rs as [|r rs IH]; intros Hnd; [by left|].
  unfold with_key, keys_of in *. simpl in Hnd. rewrite filter_cons.
  destruct (r !! keyColumn) as [k'|] eqn:Hk.
  - apply NoDup_cons in Hnd as [Hfresh Hnd]. case_decide as Heq.
    + injection Heq as ->. right. exists r. f_equal.
      by apply (with_key_nil keyColumn).
    + by apply IH.
  - rewrite decide_False by done. by apply IH.
Qed.

Lemma strict_inv_lookup (keyColumn : string) (rs : list row) (tbl : table) r k :
  strict_inv keyColumn rs tbl → NoDup (keys_of keyColumn rs) →
  r ∈ rs → r !! keyColumn = Some k → tbl !! k = Some (One r).
Proof.
  intros Hinv Hnd Hin Hk. rewrite (Hinv k).
  assert (r ∈ with_key keyColumn k rs) as Hw by by apply list_elem_of_filter.
  destruct (with_key_NoDup keyColumn k rs Hnd) as [Hnil|[r' Hone]].
  - rewrite Hnil in Hw. by apply elem_of_nil in Hw.
  - rewrite Hone in Hw |- *. by apply list_elem_of_singleton in Hw as ->.
Qed.

Lemma length_keys_of (keyColumn : string) (rs : list row) :
  Forall (has_key keyColumn) rs → length (keys_of keyColumn rs) = length rs.
Proof.
  induction 1 as [|r rs [k Hk] _ IH]; [done|].
  unfold keys_of in *. simpl. rewrite Hk. simpl. by f_equal.
Qed.

(** X1: the strict build succeeds exactly when every record has the key
    column and no two records share a key value. *)
Theorem rowToTable_strict_succeeds_iff (keyColumn : string) (rowData : list row) :
  (∃ tbl, rowToTable rowData keyColumn false = Ok tbl)
  ↔ Forall (has_key keyColumn) rowData ∧ NoDup (keys_of keyColumn rowData).
Proof.
  unfold rowToTable. split.
  - intros [tbl Hrun].
    destruct (rowToTable_loop_strict_inv keyColumn rowData [] ∅ tbl)
      as (Hall & Hnd & _); [apply strict_inv_empty|constructor|done|done].
  - intros [Hall Hnd].
    destruct (rowToTable_loop_strict_ok keyColumn rowData [] ∅)
      as (tbl & Hrun & _); [apply strict_inv_empty|done|done|by exists tbl].
Qed.

(** X2: a strict build of records with pairwise distinct keys can be read
    back: the table has one key per record, every record is found as a
    single row under its own key value, and no other key is bound. *)
Theorem rowToTable_strict_round_trip (keyColumn : string) (rowData : list row) :
  Forall (has_key keyColumn) rowData →
  NoDup (keys_of keyColumn rowData) →
  ∃ tbl,
    rowToTable rowData keyColumn false = Ok tbl
    ∧ size tbl = length rowData
    ∧ (∀ r k, r ∈ rowData → r !! keyColumn = Some k → tbl !! k = Some (One r))
    ∧ (∀ k, k ∉ keys_of keyColumn rowData → tbl !! k = None).
Proof.
  intros Hall Hnd. unfold rowToTable.
  destruct (rowToTable_loop_strict_ok keyColumn rowData [] ∅)
    as (tbl & Hrun & Hinv); [apply strict_inv_empty|done|done|].
  simpl in Hinv. exists tbl. split; [done|]. split; [|split].
  - rewrite <- (length_keys_of keyColumn rowData Hall).
    rewrite <- (size_list_to_set (C := gset value)) by done.
    rewrite <- size_dom. f_equal. apply set_eq. intros k.
    rewrite elem_of_dom, elem_of_list_to_set. by apply strict_inv_dom.
  - intros r k Hin Hk. by eapply strict_inv_lookup.
  - intros k Hk. apply eq_None_not_Some. by rewrite (strict_inv_dom keyColumn rowData).
Qed.

Lemma rowToTable_strict_round_trip_witness :
  ∃ tbl,
    rowToTable rows_two_codes "code" false = Ok tbl
    ∧ size tbl = 2%nat
    ∧ tbl !! VStr "BBB" = Some (One {[ "code" := VStr "BBB"; "existing" := VInt 20 ]})
    ∧ tbl !! VStr "CCC" = None.
Proof.
  destruct (rowToTable_strict_round_trip "code" rows_two_codes)
    as (tbl & Hrun & Hsize & Hin & Hout).
  - repeat (apply Forall_cons_2; [by eexists|]). apply Forall_nil_2.
  - apply (bool_decide_unpack (NoDup (keys_of "code" rows_two_codes))).
    vm_compute. exact I.
  - exists tbl. split; [exact Hrun|]. split; [exact Hsize|]. split.
    + apply Hin; [|reflexivity]. apply list_elem_of_lookup. by exists 1%nat.
    + apply Hout. intros Hk. vm_compute in Hk.
      apply elem_of_cons in Hk as [Hk|Hk]; [discriminate Hk|].
      apply elem_of_cons in Hk as [Hk|Hk]; [discriminate Hk|].
      by apply elem_of_nil in Hk.
Defined.

Lemma rowToTable_loop_missing_key (keyColumn : string) (allowDupes : bool)
    (r : row) (post : list row) (tbl : table) :
  r !! keyColumn = None →
  rowToTable_loop keyColumn allowDupes (r :: post) tbl
  = Err (missing_key_column_error keyColumn).
Proof. intros Hk. simpl. unfold rowToTable_step. by rewrite Hk. Qed.

(** X3: the permissive build succeeds exactly when every record has the
    key column; otherwise it raises the [LookupError] that names the
    column, and nothing else. *)
Theorem rowToTable_permissive_succeeds_iff (keyColumn : string) (rowData : list row) :
  (Forall (has_key keyColumn) rowData →
   ∃ tbl, rowToTable rowData keyColumn true = Ok tbl)
  ∧ (¬ Forall (has_key keyColumn) rowData →
     rowToTable rowData keyColumn true = Err (missing_key_column_error keyColumn)).
Proof.
  unfold rowToTable. split.
  - intros Hall.
    destruct (rowToTable_loop_permissive keyColumn rowData [] ∅)
      as (tbl & Hrun & _); [apply permissive_inv_empty|done|by exists tbl].
  - generalize (permissive_inv_empty keyColumn).
    generalize (∅ : table) at 1 2. generalize (@nil row).
    induction rowData as [|r rs IH]; intros pre tbl Hinv Hbad.
    + destruct Hbad. constructor.
    + destruct (r !! keyColumn) as [k|] eqn:Hk.
      * destruct (rowToTable_step_permissive keyColumn pre tbl r k Hinv Hk)
          as (tbl1 & Hstep & Hinv1).
        simpl. rewrite Hstep. simpl. apply (IH (pre ++ [r])); [done|].
        intros Hrs. apply Hbad. constructor; [by exists k|done].
      * by apply rowToTable_loop_missing_key.
Qed.

Lemma rowToTable_permissive_succeeds_iff_witness :
  (∃ tbl, rowToTable rows_repeated_key "code" true = Ok tbl)
  ∧ rowToTable rows_missing_key "code" true
    = Err (LookupError "Key column code not in row data").
Proof.
  split.
  - apply (proj1 (rowToTable_permissive_succeeds_iff "code" rows_repeated_key)).
    repeat (apply Forall_cons_2; [by eexists|]). apply Forall_nil_2.
  - apply (proj2 (rowToTable_permissive_succeeds_iff "code" rows_missing_key)).
    intros Hall. apply Forall_cons in Hall as [[k Hk] _]. discriminate Hk.
Defined.

(** X4: on records that the strict build accepts the duplicate policy
    makes no difference: the permissive build returns the same table. *)
Theorem rowToTable_modes_agree (keyColumn : string) (rowData : list row) (tbl : table) :
  rowToTable rowData keyColumn false = Ok tbl →
  rowToTable rowData keyColumn true = Ok tbl.
Proof.
  unfold rowToTable. intros Hrun.
  destruct (rowToTable_loop_strict_inv keyColumn rowData [] ∅ tbl)
    as (Hall & Hnd & Hinv); [apply strict_inv_empty|constructor|done|].
  destruct (rowToTable_loop_permissive keyColumn rowData [] ∅)
    as (tbl' & Hrun' & Hinv'); [apply permissive_inv_empty|done|].
  rewrite Hrun'. f_equal. apply map_eq. intros k.
  simpl in Hinv, Hinv', Hnd. rewrite (Hinv k), (Hinv' k).
  by destruct (with_key_NoDup keyColumn k rowData Hnd) as [->|[r ->]].
Qed.

Lemma rowToTable_modes_agree_witness :
  ∃ tbl, rowToTable rows_two_codes "code" false = Ok tbl
         ∧ rowToTable rows_two_codes "code" true = Ok tbl.
Proof.
  exists {[ VStr "AAA" := One {[ "code" := VStr "AAA"; "existing" := VInt 10 ]};
            VStr "BBB" := One {[ "code" := VStr "BBB"; "existing" := VInt 20 ]} ]}.
  assert (rowToTable rows_two_codes "code" false
          = Ok {[ VStr "AAA" := One {[ "code" := VStr "AAA"; "existing" := VInt 10 ]};
                  VStr "BBB" := One {[ "code" := VStr "BBB"; "existing" := VInt 20 ]} ]})
    as Hstrict by by_computation.
  split; [exact Hstrict|].
  exact (rowToTable_modes_agree "code" rows_two_codes _ Hstrict).
Defined.

(** X5: in strict mode a record without the key column raises the
    [LookupError] naming the column, provided the records before it all
    have the column and pairwise distinct keys (a repeated key before it
    would be reported instead). *)
Theorem rowToTable_strict_missing_key
    (keyColumn : string) (pre post : list row) (r : row) :
  Forall (has_key keyColumn) pre → NoDup (keys_of keyColumn pre) →
  r !! keyColumn = None →
  rowToTable (pre ++ r :: post) keyColumn false
  = Err (missing_key_column_error keyColumn).
Proof.
  intros Hall Hnd Hk. unfold rowToTable.
  assert (∀ todo handled tbl, strict_inv keyColumn handled tbl →
            Forall (has_key keyColumn) todo →
            NoDup (keys_of keyColumn (handled ++ todo)) →
            rowToTable_loop keyColumn false (todo ++ r :: post) tbl
            = Err (missing_key_column_error keyColumn)) as Hgen.
  { induction todo as [|x todo IH]; intros handled tbl Hinv Ha Hn.
    - by apply rowToTable_loop_missing_key.
    - apply Forall_cons in Ha as [[kx Hkx] Ha].
      rewrite cons_middle, (assoc_L (++)) in Hn.
      assert (kx ∉ keys_of keyColumn handled) as Hfresh.
      { unfold keys_of in Hn. rewrite omap_app in Hn.
        apply NoDup_app in Hn as [Hn _].
        fold (keys_of keyColumn (handled ++ [x])) in Hn.
        rewrite (keys_of_snoc _ _ _ _ Hkx) in Hn.
        apply NoDup_app in Hn as (_ & Hd & _). intros Hin.
        apply (Hd _ Hin). by left. }
      simpl. rewrite (rowToTable_step_strict keyColumn handled tbl x kx Hinv Hkx).
      rewrite decide_False by done. simpl.
      apply (IH (handled ++ [x])); [by apply strict_inv_step|done|done]. }
  apply (Hgen pre [] ∅); [apply strict_inv_empty|done|done].
Qed.

Lemma rowToTable_strict_missing_key_witness :
  rowToTable ([ {[ "code" := VStr "AAA" ]} ] ++ ∅ :: [ {[ "code" := VStr "AAA" ]} ])
    "code" false
  = Err (LookupError "Key column code not in row data").
Proof.
  apply (rowToTable_strict_missing_key "code" [ {[ "code" := VStr "AAA" ]} ]
           [ {[ "code" := VStr "AAA" ]} ] ∅).
  - apply Forall_cons_2; [by eexists|]. apply Forall_nil_2.
  - apply (bool_decide_unpack (NoDup (keys_of "code" [ {[ "code" := VStr "AAA" ]} ]))).
    vm_compute. exact I.
  - reflexivity.
Defined.

(** ** [dictColCopy] *)

(** X6: when every listed key is in the source dictionary, [dictColCopy]
    ends normally; afterwards the target holds the source's value under
    every listed key and its own former binding under every other key. *)
Theorem dictColCopy_copies_listed_keys
    (fromDict toDict : row) (keyList : list string) :
  (∀ key, key ∈ keyList → is_Some (fromDict !! key)) →
  ∃ toDict',
    dictColCopy fromDict toDict keyList = (toDict', Ok tt)
    ∧ ∀ key, toDict' !! key
             = if decide (key ∈ keyList) then fromDict !! key else toDict !! key.
Proof. apply dictColCopy_lookup. Qed.

Lemma dictColCopy_copies_listed_keys_witness :
  ∃ toDict',
    dictColCopy {[ "district_id" := VInt 4; "name" := VStr "F" ]}
      {[ "id" := VInt 1; "district_id" := VNone ]} ["district_id"]
    = (toDict', Ok tt)
    ∧ toDict' !! "district_id" = Some (VInt 4)
    ∧ toDict' !! "id" = Some (VInt 1)
    ∧ toDict' !! "name" = None.
Proof.
  destruct (dictColCopy_copies_listed_keys
              {[ "district_id" := VInt 4; "name" := VStr "F" ]}
              {[ "id" := VInt 1; "district_id" := VNone ]} ["district_id"])
    as (d & Hrun & Hd).
  - intros key Hkey. apply list_elem_of_singleton in Hkey as ->. by eexists.
  - exists d. split; [exact Hrun|]. rewrite !Hd. repeat split.
Defined.

(** X7: at the first listed key that the source dictionary lacks,
    [dictColCopy] raises the exception naming that key; the keys listed
    before it have been copied, nothing else of the target has
    changed. *)
Theorem dictColCopy_missing_key
    (fromDict toDict : row) (pre post : list string) (key : string) :
  (∀ k, k ∈ pre → is_Some (fromDict !! k)) →
  fromDict !! key = None →
  ∃ toDict',
    dictColCopy fromDict toDict (pre ++ key :: post)
    = (toDict', Err (Exception ("Key " +:+ key +:+ " not found")))
    ∧ ∀ k, toDict' !! k
           = if decide (k ∈ pre) then fromDict !! k else toDict !! k.
Proof.
  revert toDict. induction pre as [|k0 pre IH]; intros toDict Hpre Hkey.
  - exists toDict. simpl. rewrite Hkey. split; [done|].
    intros k. done.
  - destruct (Hpre k0) as [v Hv]; [by left|].
    destruct (IH (<[k0 := v]> toDict)) as (d & Hrun & Hd); [|done|].
    { intros k Hk. apply Hpre. by right. }
    exists d. simpl. rewrite Hv. split; [done|]. intros k. rewrite Hd.
    destruct (decide (k ∈ pre)) as [Hin|Hnin].
    + rewrite decide_True; [done|by right].
    + destruct (decide (k = k0)) as [->|Hne].
      * rewrite decide_True by by left. by rewrite lookup_insert_eq.
      * rewrite decide_False by (intros [?|?]%elem_of_cons; done).
        by rewrite lookup_insert_ne.
Qed.

Lemma dictColCopy_missing_key_witness :
  ∃ toDict',
    dictColCopy {[ "district_id" := VInt 4 ]} {[ "id" := VInt 1 ]}
      (["district_id"] ++ "province_id" :: [])
    = (toDict', Err (Exception "Key province_id not found"))
    ∧ toDict' !! "district_id" = Some (VInt 4)
    ∧ toDict' !! "id" = Some (VInt 1).
Proof.
  destruct (dictColCopy_missing_key {[ "district_id" := VInt 4 ]} {[ "id" := VInt 1 ]}
              ["district_id"] [] "province_id") as (d & Hrun & Hd).
  - intros k Hk. apply list_elem_of_singleton in Hk as ->. by eexists.
  - reflexivity.
  - exists d. split; [exact Hrun|]. rewrite !Hd. repeat split.
Defined.

(** ** [geoZoneFlatten]: what the mapping holds *)

(** X8: when the walk from the leaf ends, the flattened mapping is bound
    at exactly the level labels met on the path, never at more labels
    than there are nodes, and the node bound to a label is a node of the
    path carrying that label. *)
Theorem geoZoneFlatten_levels (tbl : table) (leaf : row) (path : list row) :
  walk tbl leaf path →
  ∃ gz,
    geoZoneFlatten (length path) (Some (One leaf)) tbl = Some (Ok gz)
    ∧ (∀ L, is_Some (gz !! L) ↔ ∃ z, z ∈ path ∧ level_of z = Some L)
    ∧ (∀ L z, gz !! L = Some z → z ∈ path ∧ level_of z = Some L)
    ∧ (size gz ≤ length path)%nat.
Proof.
  intros Hw. exists (flatten_path path ∅).
  pose proof (walk_levels tbl leaf path Hw) as Hlv.
  assert (∀ L z, flatten_path path ∅ !! L = Some z → z ∈ path ∧ level_of z = Some L)
    as Hsound.
  { intros L z. rewrite flatten_path_lookup by done.
    destruct (last _) as [z'|] eqn:Hlast; [|by rewrite lookup_empty].
    intros [= ->]. apply last_Some_elem_of in Hlast.
    by apply list_elem_of_filter in Hlast as [? ?]. }
  split; [|split; [|split]].
  - unfold geoZoneFlatten. by apply geoZoneFlatten_loop_walk.
  - intros L. split.
    + intros [z Hz]. exists z. by apply Hsound.
    + intros (z & Hin & Hl). rewrite flatten_path_lookup by done.
      destruct (last _) as [z'|] eqn:Hlast; [by eexists|].
      apply last_None in Hlast.
      assert (z ∈ filter (λ z, level_of z = Some L) path) as Hf
        by by apply list_elem_of_filter.
      rewrite Hlast in Hf. by apply elem_of_nil in Hf.
  - exact Hsound.
  - clear Hsound Hlv Hw.
    assert (∀ gz : gmap value row,
              (size (flatten_path path gz) ≤ size gz + length path)%nat) as Hsz.
    { induction path as [|z path IH]; intros gz; [simpl; lia|].
      unfold flatten_path in *. simpl. etrans; [apply IH|].
      destruct (level_of z) as [lvl|]; [|lia].
      destruct (gz !! lvl) as [old|] eqn:Hold.
      - rewrite map_size_insert_Some by done. lia.
      - rewrite map_size_insert_None by done. lia. }
    specialize (Hsz ∅). by rewrite map_size_empty in Hsz.
Qed.

Lemma geoZoneFlatten_levels_witness :
  ∃ gz,
    geoZoneFlatten 2 (Some (One twin_leaf)) twin_table = Some (Ok gz)
    ∧ is_Some (gz !! VStr "commune") ∧ gz !! VStr "dept" = None
    ∧ (size gz ≤ 2)%nat.
Proof.
  destruct (geoZoneFlatten_levels twin_table twin_leaf [twin_leaf; twin_root] twin_walk)
    as (gz & Hrun & Hdom & Hsound & Hsize).
  exists gz. split; [exact Hrun|]. split; [|split; [|exact Hsize]].
  - apply Hdom. exists twin_leaf. split; [by left|reflexivity].
  - apply eq_None_not_Some. intros Hsome. apply Hdom in Hsome as (z & Hin & Hl).
    apply elem_of_cons in Hin as [->|Hin]; [discriminate Hl|].
    apply list_elem_of_singleton in Hin as ->. discriminate Hl.
Defined.

(** ** [facilityAddGeoLevels] *)

Lemma GEO_LEVEL_orders (levels : list (string * string)) :
  levels ≡ₚ GEO_LEVEL →
  levels = [("district", "commune"); ("province", "dept")]
  ∨ levels = [("province", "dept"); ("district", "commune")].
Proof.
  intros Hp. pose proof (Permutation_length Hp) as Hlen.
  destruct levels as [|a [|b [|c l]]]; try discriminate Hlen.
  apply Permutation_length_2 in Hp as [[-> ->]|[-> ->]]; auto.
Qed.

Lemma level_column_inj (geoLevelName : string) :
  Inj (=) (=) (λ geoK, geoLevelName +:+ "_" +:+ geoK).
Proof.
  intros k1 k2 Heq. apply (inj (String.app geoLevelName)) in Heq.
  by apply (inj (String.app "_")) in Heq.
Qed.

Lemma add_level_columns_union (geoLevelName : string) (geoLevel fac : row) :
  add_level_columns geoLevelName geoLevel fac
  = list_to_map (reverse ((λ kv, (geoLevelName +:+ "_" +:+ kv.1, kv.2))
                            <$> map_to_list geoLevel)) ∪ fac.
Proof.
  unfold add_level_columns. rewrite <- foldl_insert_cells. by rewrite foldl_fmap.
Qed.

Lemma add_level_columns_lookup_in (geoLevelName : string) (geoLevel fac : row) geoK v :
  geoLevel !! geoK = Some v →
  add_level_columns geoLevelName geoLevel fac !! (geoLevelName +:+ "_" +:+ geoK)
  = Some v.
Proof.
  intros Hv. rewrite add_level_columns_union. apply lookup_union_Some_l.
  apply elem_of_list_to_map_1.
  - rewrite fmap_reverse, reverse_Permutation, <- list_fmap_compose.
    apply (NoDup_fmap_2_strong _). 2: apply NoDup_map_to_list.
    intros [k1 v1] [k2 v2] H1%elem_of_map_to_list H2%elem_of_map_to_list Heq.
    simpl in Heq. apply level_column_inj in Heq as ->. congruence.
  - rewrite elem_of_reverse. apply list_elem_of_fmap.
    exists (geoK, v). split; [done|]. by apply elem_of_map_to_list.
Qed.

Lemma add_level_columns_lookup_out (geoLevelName : string) (geoLevel fac : row) key :
  (∀ geoK, key ≠ geoLevelName +:+ "_" +:+ geoK) →
  add_level_columns geoLevelName geoLevel fac !! key = fac !! key.
Proof.
  intros Hkey. rewrite add_level_columns_union. apply lookup_union_r.
  apply not_elem_of_list_to_map_1. rewrite fmap_reverse, elem_of_reverse.
  rewrite <- list_fmap_compose.
  intros ([k v] & -> & _)%list_elem_of_fmap. by eapply Hkey.
Qed.

Lemma district_not_province (k1 k2 : string) :
  "district" +:+ "_" +:+ k1 ≠ "province" +:+ "_" +:+ k2.
Proof. intros H. discriminate H. Qed.

(** What the loop over the levels returns when both levels are in the
    flattened mapping, in either order of the levels. *)
Lemma facilityAddGeoLevels_loop_ok (levels : list (string * string))
    (geoFlat : gmap value row) (fac zd zp : row) :
  levels ≡ₚ GEO_LEVEL →
  geoFlat !! VStr "commune" = Some zd → geoFlat !! VStr "dept" = Some zp →
  ∃ fac',
    facilityAddGeoLevels_loop levels geoFlat fac = (fac', Ok tt)
    ∧ (∀ geoK v, zd !! geoK = Some v → fac' !! ("district_" +:+ geoK) = Some v)
    ∧ (∀ geoK v, zp !! geoK = Some v → fac' !! ("province_" +:+ geoK) = Some v)
    ∧ (∀ key, (∀ geoK, key ≠ "district_" +:+ geoK) →
              (∀ geoK, key ≠ "province_" +:+ geoK) → fac' !! key = fac !! key).
Proof.
  intros [->| ->]%GEO_LEVEL_orders Hd Hp; simpl; rewrite Hd, Hp.
  - eexists. split; [done|]. split; [|split].
    + intros geoK v Hv. change ("district_" +:+ geoK) with ("district" +:+ "_" +:+ geoK).
      rewrite add_level_columns_lookup_out
        by (intros k H; by apply (district_not_province geoK k)).
      by apply add_level_columns_lookup_in.
    + intros geoK v Hv. by apply (add_level_columns_lookup_in "province").
    + intros key Hnd Hnp.
      rewrite (add_level_columns_lookup_out "province") by exact Hnp.
      by rewrite (add_level_columns_lookup_out "district") by exact Hnd.
  - eexists. split; [done|]. split; [|split].
    + intros geoK v Hv. by apply (add_level_columns_lookup_in "district").
    + intros geoK v Hv. change ("province_" +:+ geoK) with ("province" +:+ "_" +:+ geoK).
      rewrite add_level_columns_lookup_out
        by (intros k H; by apply (district_not_province k geoK)).
      by apply add_level_columns_lookup_in.
    + intros key Hnd Hnp.
      rewrite (add_level_columns_lookup_out "district") by exact Hnd.
      by rewrite (add_level_columns_lookup_out "province") by exact Hnp.
Qed.

(** The loop raises as soon as it meets a level that the flattened
    mapping lacks. *)
Lemma facilityAddGeoLevels_loop_missing (levels : list (string * string))
    (geoFlat : gmap value row) (geoLevelName geoLevelCode : string) :
  ∀ fac, (geoLevelName, geoLevelCode) ∈ levels →
    geoFlat !! VStr geoLevelCode = None →
    ∃ fac' code,
      facilityAddGeoLevels_loop levels geoFlat fac
      = (fac', Err (Exception ("GeoLevelCode " +:+ code
                               +:+ " not in geographic level table")))
      ∧ geoFlat !! VStr code = None.
Proof.
  induction levels as [|[n c] levels IH]; intros fac Hin Hnone.
  - by apply elem_of_nil in Hin.
  - simpl. destruct (geoFlat !! VStr c) as [z|] eqn:Hc.
    + apply elem_of_cons in Hin as [[= -> ->]|Hin]; [congruence|]. by apply IH.
    + by exists fac, c.
Qed.

(** X9: for a facility whose zone is in the table and from which the walk
    ends on a path with a zone of level [commune] and one of level
    [dept], [facilityAddGeoLevels] ends normally, whatever the order in
    which the two levels are visited: every column of the last such zone
    of each level is on the facility under [district_] resp. [province_]
    and the column name, and every column of the facility not so named
    is as before. *)
Theorem facilityAddGeoLevels_adds_levels
    (levels : list (string * string)) (tbl : table) (fac : row) (zid : value)
    (leaf : row) (path : list row) (zd zp : row) :
  levels ≡ₚ GEO_LEVEL →
  fac !! "geographiczoneid" = Some zid →
  tbl !! zid = Some (One leaf) →
  walk tbl leaf path →
  last (filter (λ z, level_of z = Some (VStr "commune")) path) = Some zd →
  last (filter (λ z, level_of z = Some (VStr "dept")) path) = Some zp →
  ∃ fac',
    facilityAddGeoLevels levels (length path) (One fac) tbl = Some (One fac', Ok tt)
    ∧ (∀ geoK v, zd !! geoK = Some v → fac' !! ("district_" +:+ geoK) = Some v)
    ∧ (∀ geoK v, zp !! geoK = Some v → fac' !! ("province_" +:+ geoK) = Some v)
    ∧ (∀ key, (∀ geoK, key ≠ "district_" +:+ geoK) →
              (∀ geoK, key ≠ "province_" +:+ geoK) → fac' !! key = fac !! key).
Proof.
  intros Hlv Hzid Hleaf Hw Hd Hp.
  pose proof (walk_levels tbl leaf path Hw) as Hall.
  destruct (facilityAddGeoLevels_loop_ok levels (flatten_path path ∅) fac zd zp)
    as (fac' & Hrun & Hrest); [done|..].
  { rewrite flatten_path_lookup by done. by rewrite Hd. }
  { rewrite flatten_path_lookup by done. by rewrite Hp. }
  exists fac'. split; [|exact Hrest].
  unfold facilityAddGeoLevels, geoZoneFlatten. rewrite Hzid, Hleaf.
  rewrite (geoZoneFlatten_loop_walk tbl leaf path Hw) by done. by rewrite Hrun.
Qed.

Lemma zone_walk : walk zone_table zone_commune [zone_commune; zone_dept].
Proof.
  eapply (walk_parent _ _ (VStr "commune") (VInt 10)); [done..|].
  by eapply (walk_root _ _ (VStr "dept") VNone).
Qed.

Lemma facilityAddGeoLevels_adds_levels_witness :
  ∃ fac',
    facilityAddGeoLevels GEO_LEVEL 2 (One facility_f1) zone_table
    = Some (One fac', Ok tt)
    ∧ fac' !! "district_id" = Some (VInt 11)
    ∧ fac' !! "province_id" = Some (VInt 10)
    ∧ fac' !! "code" = Some (VStr "F1").
Proof.
  destruct (facilityAddGeoLevels_adds_levels GEO_LEVEL zone_table facility_f1
              (VInt 11) zone_commune [zone_commune; zone_dept] zone_commune zone_dept)
    as (fac' & Hrun & Hd & Hp & Hframe).
  - reflexivity.
  - reflexivity.
  - reflexivity.
  - exact zone_walk.
  - reflexivity.
  - reflexivity.
  - exists fac'. split; [exact Hrun|]. split; [|split].
    + by apply (Hd "id").
    + by apply (Hp "id").
    + rewrite Hframe; [reflexivity|intros k H; discriminate H..].
Defined.

(** X10: when the path of the facility's zone has no zone of one of the
    two levels, [facilityAddGeoLevels] raises the exception that names a
    level code absent from the path. *)
Theorem facilityAddGeoLevels_missing_level
    (levels : list (string * string)) (tbl : table) (fac : row) (zid : value)
    (leaf : row) (path : list row) (geoLevelName geoLevelCode : string) :
  levels ≡ₚ GEO_LEVEL →
  fac !! "geographiczoneid" = Some zid →
  tbl !! zid = Some (One leaf) →
  walk tbl leaf path →
  (geoLevelName, geoLevelCode) ∈ GEO_LEVEL →
  (∀ z, z ∈ path → level_of z ≠ Some (VStr geoLevelCode)) →
  ∃ fac' code,
    facilityAddGeoLevels levels (length path) (One fac) tbl
    = Some (One fac', Err (Exception ("GeoLevelCode " +:+ code
                                      +:+ " not in geographic level table")))
    ∧ ∀ z, z ∈ path → level_of z ≠ Some (VStr code).
Proof.
  intros Hlv Hzid Hleaf Hw Hin Hnone.
  pose proof (walk_levels tbl leaf path Hw) as Hall.
  assert (∀ code, flatten_path path ∅ !! VStr code = None →
            ∀ z, z ∈ path → level_of z ≠ Some (VStr code)) as Habsent.
  { intros code Hc z Hz Hl. rewrite flatten_path_lookup in Hc by done.
    destruct (last _) eqn:Hlast; [done|]. apply last_None in Hlast.
    assert (z ∈ filter (λ z, level_of z = Some (VStr code)) path) as Hf
      by by apply list_elem_of_filter.
    rewrite Hlast in Hf. by apply elem_of_nil in Hf. }
  destruct (facilityAddGeoLevels_loop_missing levels (flatten_path path ∅)
              geoLevelName geoLevelCode fac) as (fac' & code & Hrun & Hcode).
  { by rewrite Hlv. }
  { rewrite flatten_path_lookup by done.
    destruct (last _) as [z|] eqn:Hlast; [|by rewrite lookup_empty].
    apply last_Some_elem_of, list_elem_of_filter in Hlast as [Hl Hz].
    by destruct (Hnone z Hz). }
  exists fac', code. split; [|by apply Habsent].
  unfold facilityAddGeoLevels, geoZoneFlatten. rewrite Hzid, Hleaf.
  rewrite (geoZoneFlatten_loop_walk tbl leaf path Hw) by done. by rewrite Hrun.
Qed.

Lemma facilityAddGeoLevels_missing_level_witness :
  ∃ fac' code,
    facilityAddGeoLevels GEO_LEVEL 1 (One facility_f2) zone_table
    = Some (One fac', Err (Exception ("GeoLevelCode " +:+ code
                                      +:+ " not in geographic level table")))
    ∧ ∀ z, z ∈ [zone_dept] → level_of z ≠ Some (VStr code).
Proof.
  apply (facilityAddGeoLevels_missing_level GEO_LEVEL zone_table facility_f2
           (VInt 10) zone_dept [zone_dept] "district" "commune").
  - reflexivity.
  - reflexivity.
  - reflexivity.
  - by eapply (walk_root _ _ (VStr "dept") VNone).
  - by left.
  - intros z Hz. apply list_elem_of_singleton in Hz as ->. discriminate.
Defined.



(** ** From the zone rows to the zone ids on a visit *)

Lemma rowToTable_strict_entries (keyColumn : string) (rowData : list row)
    (tbl : table) (k : value) (e : entry) :
  rowToTable rowData keyColumn false = Ok tbl → tbl !! k = Some e →
  ∃ r, e = One r ∧ r ∈ rowData ∧ r !! keyColumn = Some k.
Proof.
  unfold rowToTable. intros Hrun He.
  destruct (rowToTable_loop_strict_inv keyColumn rowData [] ∅ tbl)
    as (_ & _ & Hinv); [apply strict_inv_empty|constructor|done|].
  simpl in Hinv. rewrite (Hinv k) in He.
  destruct (head _) as [r|] eqn:Hhead; [|done]. injection He as <-.
  apply head_Some_elem_of, list_elem_of_filter in Hhead as [Hk Hin]. by exists r.
Qed.

(** The zones bound in the flattened mapping are values of the table. *)
Lemma geoZoneFlatten_loop_values (tbl : table) (fuel : nat) :
  ∀ geoZone gz0 gz,
    (∀ e, geoZone = Some e → ∃ k, tbl !! k = Some e) →
    (∀ L z, gz0 !! L = Some z →
       (∃ k, tbl !! k = Some (One z)) ∧ level_of z = Some L) →
    geoZoneFlatten_loop fuel geoZone tbl gz0 = Some (Ok gz) →
    ∀ L z, gz !! L = Some z →
      (∃ k, tbl !! k = Some (One z)) ∧ level_of z = Some L.
Proof.
  induction fuel as [|fuel IH]; intros geoZone gz0 gz Hfrom Hinv Hrun.
  - destruct geoZone as [[z|rs]|]; simpl in Hrun; [done|done|].
    by injection Hrun as <-.
  - destruct geoZone as [[z|rs]|]; simpl in Hrun; [|done|by injection Hrun as <-].
    destruct (z !! "geo_level_code") as [lvl|] eqn:Hl; [|done].
    destruct (z !! "parentid") as [pid|] eqn:Hp; [|done].
    eapply IH; [| |exact Hrun].
    + intros e He. by exists pid.
    + intros L z' Hz'. destruct (decide (lvl = L)) as [->|Hne].
      * rewrite lookup_insert_eq in Hz'. injection Hz' as <-.
        split; [by apply Hfrom|done].
      * rewrite lookup_insert_ne in Hz' by done. by apply Hinv.
Qed.

(** X12: when the zone table is the strict table of the zone rows keyed
    by [id] and [facilityAddGeoLevels] has ended normally on a facility,
    the copy of the geo keys onto a visit of that facility cannot fail:
    the visit receives as [district_id] and [province_id] the ids of
    zones of the table at the levels [commune] and [dept]. *)
Theorem geo_ids_reach_the_visit
    (levels : list (string * string)) (zones : list row) (tbl : table)
    (fuel : nat) (fac fac' : row) (facilityTable : table) (fv : row)
    (facId : value) :
  levels ≡ₚ GEO_LEVEL →
  rowToTable zones "id" false = Ok tbl →
  facilityAddGeoLevels levels fuel (One fac) tbl = Some (One fac', Ok tt) →
  fv !! "facility_id" = Some facId →
  facilityTable !! facId = Some (One fac') →
  ∃ d p zd zp,
    tbl !! d = Some (One zd) ∧ level_of zd = Some (VStr "commune")
    ∧ tbl !! p = Some (One zp) ∧ level_of zp = Some (VStr "dept")
    ∧ copyGeoKeysToVisit levels facilityTable fv
      = (<["province_id" := p]> (<["district_id" := d]> fv), Ok tt).
Proof.
  intros Hlv Htbl Hrun Hfid Hfac.
  unfold facilityAddGeoLevels in Hrun.
  destruct (fac !! "geographiczoneid") as [zid|]; [|done].
  destruct (geoZoneFlatten fuel (tbl !! zid) tbl) as [[gz|err]|] eqn:Hflat; [|done..].
  destruct (facilityAddGeoLevels_loop levels gz fac) as [f out] eqn:Hloop.
  injection Hrun as -> ->.
  assert (∃ zd zp, gz !! VStr "commune" = Some zd ∧ gz !! VStr "dept" = Some zp)
    as (zd & zp & Hzd & Hzp).
  { apply GEO_LEVEL_orders in Hlv as [->| ->]; simpl in Hloop;
      destruct (gz !! VStr "commune") as [zd|]; destruct (gz !! VStr "dept") as [zp|];
      try done; by exists zd, zp. }
  pose proof (geoZoneFlatten_loop_values tbl fuel (tbl !! zid) ∅ gz) as Hvals.
  destruct (Hvals (λ e He, ex_intro _ zid He)) with (L := VStr "commune") (z := zd)
    as [[d Hd] Hld]; [by intros ? ? ?|done|done|].
  destruct (Hvals (λ e He, ex_intro _ zid He)) with (L := VStr "dept") (z := zp)
    as [[p Hp] Hlp]; [by intros ? ? ?|done|done|].
  destruct (rowToTable_strict_entries "id" zones tbl d _ Htbl Hd) as (? & [= <-] & _ & Hidd).
  destruct (rowToTable_strict_entries "id" zones tbl p _ Htbl Hp) as (? & [= <-] & _ & Hidp).
  destruct (facilityAddGeoLevels_loop_ok levels gz fac zd zp Hlv Hzd Hzp)
    as (f' & Hloop' & Hdist & Hprov & _).
  assert (f' = fac') as -> by congruence.
  pose proof (Hdist "id" d Hidd) as Hfd. pose proof (Hprov "id" p Hidp) as Hfp.
  change ("district_" +:+ "id") with "district_id" in Hfd.
  change ("province_" +:+ "id") with "province_id" in Hfp.
  exists d, p, zd, zp. repeat (split; [done|]).
  unfold copyGeoKeysToVisit. rewrite Hfid, Hfac.
  apply GEO_LEVEL_orders in Hlv as [->| ->]; simpl.
  - change ("district" +:+ "_id") with "district_id".
    change ("province" +:+ "_id") with "province_id". by rewrite Hfd, Hfp.
  - change ("district" +:+ "_id") with "district_id".
    change ("province" +:+ "_id") with "province_id". rewrite Hfp, Hfd.
    by rewrite insert_insert_ne.
Qed.

Lemma geo_ids_reach_the_visit_witness :
  ∃ d p zd zp,
    zone_table !! d = Some (One zd) ∧ level_of zd = Some (VStr "commune")
    ∧ zone_table !! p = Some (One zp) ∧ level_of zp = Some (VStr "dept")
    ∧ copyGeoKeysToVisit GEO_LEVEL {[ VInt 1 := One facility_f1_enriched ]}
        {[ "id" := VInt 7; "facility_id" := VInt 1 ]}
      = (<["province_id" := p]>
           (<["district_id" := d]> {[ "id" := VInt 7; "facility_id" := VInt 1 ]}),
         Ok tt).
Proof.
  apply (geo_ids_reach_the_visit GEO_LEVEL zone_rows zone_table 2 facility_f1
           facility_f1_enriched {[ VInt 1 := One facility_f1_enriched ]}
           {[ "id" := VInt 7; "facility_id" := VInt 1 ]} (VInt 1)).
  - reflexivity.
  - by_computation.
  - by_computation.
  - reflexivity.
  - reflexivity.
Defined.

(** ** [generateLastVisitDate]: errors and a second run *)

Lemma sort_keys_missing (visitRows : list row) :
  ¬ Forall (λ r, is_Some (r !! "visit_code")) visitRows →
  sort_keys visitRows = Err (KeyError (VStr "visit_code")).
Proof.
  induction visitRows as [|r rows IH]; intros Hbad.
  - destruct Hbad. constructor.
  - simpl. unfold visit_code_of. destruct (r !! "visit_code") as [k|] eqn:Hk; [|done].
    simpl. rewrite IH; [done|]. intros Hall. apply Hbad. constructor; [by exists k|done].
Qed.

(** X13: when some row has no [visit_code], the pass raises the
    [KeyError] of the sort key before the loop starts: no row has been
    changed. *)
Theorem generateLastVisitDate_missing_visit_code (visitRows : list row) :
  ¬ Forall (λ r, is_Some (r !! "visit_code")) visitRows →
  generateLastVisitDate visitRows = (visitRows, Err (KeyError (VStr "visit_code"))).
Proof.
  intros Hbad. unfold generateLastVisitDate. by rewrite sort_keys_missing.
Qed.

Lemma generateLastVisitDate_missing_visit_code_witness :
  generateLastVisitDate [visit_p1; {[ "facility_id" := VInt 9 ]}]
  = ([visit_p1; {[ "facility_id" := VInt 9 ]}], Err (KeyError (VStr "visit_code"))).
Proof.
  apply generateLastVisitDate_missing_visit_code.
  intros Hall. apply Forall_cons in Hall as [_ Hall].
  apply Forall_cons in Hall as [[k Hk] _]. discriminate Hk.
Defined.

(** The outcome of the pass on well-formed rows, row by row. *)
Lemma generateLastVisitDate_spec (visitRows : list row) :
  Forall visit_row_ok visitRows →
  keys_comparable (visit_codes visitRows) = true →
  ∃ rows',
    generateLastVisitDate visitRows = (rows', Ok tt)
    ∧ Forall2 same_but_last_date visitRows rows'
    ∧ ∀ p i r e, chronological visitRows !! p = Some i → visitRows !! i = Some r →
        r !! "facility_id" = Some e →
        ∃ r', rows' !! i = Some r'
          ∧ r' !! "visited_last_date"
            = Some (prev_visit_date
                      (rows_at visitRows (take p (chronological visitRows))) e).
Proof.
  intros Hall Hcmp.
  destruct (sort_keys_ok visitRows Hall) as [Hkeys Hlen].
  pose proof (sorted_positions_perm (visit_codes visitRows)) as Hperm.
  fold (chronological visitRows) in Hperm.
  destruct (lastVisit_loop_inv visitRows (chronological visitRows) [] (visitRows, ∅))
    as ([rows' m'] & Hloop & (HF & Hmap & Hdone)).
  - split; [|split].
    + apply Forall2_same_refl.
    + intros e. simpl. by rewrite lookup_empty.
    + by intros [|?] ? ? ? ?.
  - simpl. rewrite Hperm. apply NoDup_seq.
  - intros j Hj. rewrite Hperm in Hj. apply elem_of_seq in Hj as [_ Hj].
    rewrite Hlen in Hj. simpl in Hj.
    destruct (lookup_lt_is_Some_2 visitRows j Hj) as [r0 Hr0].
    exists r0. split; [done|]. by eapply Forall_lookup_1.
  - exists rows'. split; [|split; [exact HF|exact Hdone]].
    unfold generateLastVisitDate. rewrite Hkeys, Hcmp.
    fold (chronological visitRows). by rewrite Hloop.
Qed.

Lemma same_but_last_date_recorded (rows rows' : list row) (positions : list nat)
    (e : value) :
  Forall2 same_but_last_date rows rows' →
  omap (recorded_visit e) (rows_at rows' positions)
  = omap (recorded_visit e) (rows_at rows positions).
Proof.
  intros HF. induction positions as [|i positions IH]; [done|].
  unfold rows_at in *. simpl.
  destruct (rows !! i) as [r|] eqn:Hr.
  - destruct (Forall2_lookup_l _ _ _ _ _ HF Hr) as (r' & -> & Hsame).
    simpl.
    assert (recorded_visit e r' = recorded_visit e r) as ->.
    { unfold recorded_visit. by rewrite !Hsame. }
    destruct (recorded_visit e r); [f_equal|]; exact IH.
  - assert (rows' !! i = None) as ->; [|exact IH].
    apply lookup_ge_None. apply lookup_ge_None in Hr.
    by rewrite <- (Forall2_length _ _ _ HF).
Qed.

(** X14: on visit rows that have their [visit_code], [facility_id] and
    [visited_date] (sort keys comparable) the pass is idempotent: run on
    the rows it has produced, it ends normally and leaves every row as
    it is. *)
Theorem generateLastVisitDate_idempotent (visitRows : list row) :
  Forall visit_row_ok visitRows →
  keys_comparable (visit_codes visitRows) = true →
  ∃ rows',
    generateLastVisitDate visitRows = (rows', Ok tt)
    ∧ generateLastVisitDate rows' = (rows', Ok tt).
Proof.
  intros Hall Hcmp.
  destruct (generateLastVisitDate_spec visitRows Hall Hcmp) as (rows' & Hrun & HF & Hrows).
  exists rows'. split; [exact Hrun|].
  assert (visit_codes rows' = visit_codes visitRows) as Hcodes.
  { clear -HF. unfold visit_codes.
    induction HF as [|r r' rows rows' Hsame _ IH]; [done|].
    simpl. rewrite Hsame by done.
    destruct (r !! "visit_code"); [f_equal|]; exact IH. }
  assert (Forall visit_row_ok rows') as Hall'.
  { apply Forall_forall. intros r' Hr'.
    apply list_elem_of_lookup in Hr' as [i Hi].
    destruct (Forall2_lookup_r _ _ _ _ _ HF Hi) as (r & Hr & Hsame).
    pose proof (Forall_lookup_1 _ _ _ _ Hall Hr) as (Hc & Hf & Hd).
    unfold visit_row_ok. by rewrite !Hsame. }
  destruct (generateLastVisitDate_spec rows' Hall') as (rows'' & Hrun' & HF' & Hrows').
  { by rewrite Hcodes. }
  rewrite Hrun'. f_equal. apply list_eq_same_length with (length rows').
  { done. }
  { symmetry. by eapply Forall2_length. }
  intros i r'' r' Hlt Hr'' Hr'.
  destruct (Forall2_lookup_r _ _ _ _ _ HF Hr') as (r & Hr & Hsame).
  pose proof (Forall_lookup_1 _ _ _ _ Hall Hr) as (_ & [e He] & _).
  assert (i ∈ chronological visitRows) as Hin.
  { unfold chronological. rewrite sorted_positions_perm. apply elem_of_seq.
    destruct (sort_keys_ok visitRows Hall) as [_ ->].
    apply lookup_lt_Some in Hr. lia. }
  apply list_elem_of_lookup in Hin as [p Hp].
  destruct (Hrows p i r e Hp Hr He) as (r1 & Hr1 & Hv1).
  assert (r1 = r') as -> by congruence.
  assert (chronological rows' = chronological visitRows) as Hchron
    by (unfold chronological; by rewrite Hcodes).
  destruct (Hrows' p i r' e) as (r2 & Hr2 & Hv2).
  { by rewrite Hchron. } { done. } { by rewrite Hsame. }
  assert (r2 = r'') as -> by congruence.
  pose proof (Forall2_lookup_lr _ _ _ _ _ _ HF' Hr' Hr'') as Hsame'.
  apply map_eq. intros key. destruct (decide (key = "visited_last_date")) as [->|Hne].
  - rewrite Hv2, Hv1, Hchron. unfold prev_visit_date.
    by rewrite (same_but_last_date_recorded visitRows rows').
  - by apply Hsame'.
Qed.

Lemma generateLastVisitDate_idempotent_witness :
  ∃ rows',
    generateLastVisitDate visit_history = (rows', Ok tt)
    ∧ generateLastVisitDate rows' = (rows', Ok tt).
Proof.
  apply (generateLastVisitDate_idempotent visit_history).
  - exact visit_history_ok.
  - by_computation.
Defined.

(** ** [pivotLineItems]: success, errors and colliding names *)

Lemma pivot_items_errors keyColName keyColValues columns colRename
    (items : list (value * entry)) :
  ∀ pivotD err,
    pivot_items keyColName keyColValues columns colRename items pivotD = Err err →
    err = missing_key_column_error keyColName ∨ ∃ k, err = duplicate_key_error k.
Proof.
  induction items as [|[p e] items IH]; intros pivotD err Hrun; [done|].
  simpl in Hrun.
  destruct (pivot_entry_cases keyColName keyColValues columns colRename e)
    as [[_ Hentry]|[_ (err' & Hentry & Hkind)]]; rewrite Hentry in Hrun; simpl in Hrun.
  - by eapply IH.
  - by injection Hrun as <-.
Qed.

(** X15: with a column list, the pivot succeeds exactly when every entry
    of the item table passes the strict inner build; when it fails, the
    error is the missing-key-column or the duplicate-key error of
    [rowToTable], never another one. *)
Theorem pivotLineItems_succeeds_iff
    (itemTable : table) (keyColName : string) (keyColValues columns : list string)
    (colRename : option (string → string)) :
  ((∃ pivotD, pivotLineItems itemTable keyColName keyColValues (Some columns)
                colRename = Ok pivotD)
   ↔ ∀ pid e, itemTable !! pid = Some e → entry_ok keyColName e)
  ∧ ∀ err, pivotLineItems itemTable keyColName keyColValues (Some columns)
             colRename = Err err →
      err = missing_key_column_error keyColName ∨ ∃ k, err = duplicate_key_error k.
Proof.
  unfold pivotLineItems. split; [split|].
  - intros [pivotD Hrun] pid e Hpe.
    pose proof (pivot_items_Ok_inv _ _ _ _ _ _ _ Hrun) as Hall.
    rewrite Forall_forall in Hall. by apply (Hall (pid, e)), elem_of_map_to_list.
  - intros Hok.
    destruct (pivot_items_ok keyColName keyColValues columns colRename
                (map_to_list itemTable) ∅) as (pivotD & Hrun & _).
    + apply NoDup_fst_map_to_list.
    + apply Forall_forall. intros [pid e] Hpe%elem_of_map_to_list. by eapply Hok.
    + by exists pivotD.
  - intros err. apply pivot_items_errors.
Qed.

Lemma list_to_map_lookup_head {K A} `{Countable K} (l : list (K * A)) (k : K) :
  (list_to_map l : gmap K A) !! k = snd <$> head (filter (λ c, c.1 = k) l).
Proof.
  induction l as [|[k0 v] l IH]; [done|].
  simpl. rewrite filter_cons. simpl. destruct (decide (k0 = k)) as [->|Hne].
  - by rewrite lookup_insert_eq.
  - by rewrite lookup_insert_ne.
Qed.

(** X16: when the pivot succeeds, the column mapping of a parent holds
    under each name the value of the last combination, in the order of
    the two loops, that produces this name, and nothing under a name
    that no combination produces: colliding names are not detected, the
    last write stays. *)
Theorem pivotLineItems_last_write_wins
    (itemTable : table) (keyColName : string) (keyColValues columns : list string)
    (colRename : option (string → string)) (pivotD : table) (pid : value)
    (e : entry) :
  pivotLineItems itemTable keyColName keyColValues (Some columns) colRename
  = Ok pivotD →
  itemTable !! pid = Some e →
  ∃ liDict,
    pivotD !! pid = Some (One liDict)
    ∧ ∀ name,
        liDict !! name
        = snd <$> last (filter (λ c, c.1 = name)
                          (pivot_cellsOf keyColName keyColValues columns colRename
                             (records_of e))).
Proof.
  intros Hrun Hpe. apply pivotLineItems_Ok_shape in Hrun as ->.
  exists (pivot_liDict keyColName keyColValues columns colRename (records_of e)).
  split; [by rewrite !lookup_fmap, Hpe|].
  intros name. unfold pivot_liDict.
  by rewrite list_to_map_lookup_head, filter_reverse, head_reverse.
Qed.

Lemma pivotLineItems_last_write_wins_witness :
  ∃ pivotD liDict,
    pivotLineItems colliding_items "code" ["a"; "a_b"] (Some ["b_c"; "c"]) None
    = Ok pivotD
    ∧ pivotD !! VInt 1 = Some (One liDict)
    ∧ liDict !! "a_b_c" = Some VNone.
Proof.
  assert (pivotLineItems colliding_items "code" ["a"; "a_b"] (Some ["b_c"; "c"]) None
          = Ok {[ VInt 1 := One {[ "a_b_c" := VNone; "a_c" := VInt 6;
                                   "a_b_b_c" := VNone ]} ]}) as Hrun
    by by_computation.
  destruct (pivotLineItems_last_write_wins colliding_items "code" ["a"; "a_b"]
              ["b_c"; "c"] None _ (VInt 1)
              (One {[ "code" := VStr "a"; "b_c" := VInt 5; "c" := VInt 6 ]}) Hrun)
    as (liDict & Hl & Hname); [reflexivity|].
  eexists _, liDict. split; [exact Hrun|]. split; [exact Hl|].
  rewrite Hname. by_computation.
Defined.

(** ** The rename functions *)

(** X17: a name written by one category is never a name written by
    another, whatever the key values: the four prefixes differ, and the
    two categories that share [child_coverage_] end their names
    differently. *)
Theorem category_names_distinct
    (a b : category) (kcVal col kcVal' col' : string) :
  a ≠ b → col ∈ category_cols a → col' ∈ category_cols b →
  pivot_colName (Some (category_rename a)) kcVal col
  ≠ pivot_colName (Some (category_rename b)) kcVal' col'.
Proof. apply category_names_disjoint. Qed.

Lemma category_names_distinct_witness :
  pivot_colName (Some (category_rename ChildCov)) "BCG" "targetgroup"
  ≠ pivot_colName (Some (category_rename ChildCovVials)) "BCG" "openedvials".
Proof.
  apply (category_names_distinct ChildCov ChildCovVials).
  - discriminate.
  - simpl. do 4 right. by left.
  - simpl. by left.
Defined.

Lemma string_app_nil_r (s : string) : s +:+ "" = s.
Proof.
  induction s as [|c s IH]; [done|]. rewrite string_app_cons. by rewrite IH.
Qed.

Lemma is_digit_not_newline (d : ascii) : is_digit d = true → is_newline d = false.
Proof.
  intros Hd. unfold is_newline. destruct (Ascii.eqb d "010") eqn:Heq; [|done].
  apply Ascii.eqb_eq in Heq as ->. discriminate Hd.
Qed.

Lemma match_group_digit_targetgroup (g : string) (d : ascii) :
  g ≠ EmptyString → occurs "010" g = false → is_digit d = true →
  match_group (g +:+ String d "_targetgroup") = Some (g, EmptyString).
Proof.
  intros Hne Hnl Hd.
  assert (match_group (String d "_targetgroup") = None) as Hshort.
  { simpl. by rewrite (is_digit_not_newline d Hd). }
  induction g as [|c g IH]; [done|].
  simpl in Hnl. apply orb_false_iff in Hnl as [Hc Hnl].
  rewrite string_app_cons. cbn [match_group]. unfold is_newline. rewrite Hc.
  destruct g as [|c' g].
  - rewrite string_app_nil_l, Hshort. simpl. by rewrite Hd.
  - by rewrite IH.
Qed.

(** X18: the substitution of line 533 drops the digit that stands just
    before [_targetgroup] at the end of a one-line name, so that names
    differing only in that digit become the same name. *)
Theorem re_sub_targetgroup_drops_digit (g : string) (d : ascii) :
  g ≠ EmptyString → occurs "010" g = false → is_digit d = true →
  re_sub_targetgroup (g +:+ String d "_targetgroup") = g +:+ "_targetgroup".
Proof.
  intros Hne Hnl Hd. unfold re_sub_targetgroup.
  rewrite string_length_app. simpl String.length.
  replace (String.length g + 13)%nat with (S (String.length g + 12)) by lia.
  cbn [re_sub_targetgroup_go]. rewrite match_group_digit_targetgroup by done.
  assert (∀ n, re_sub_targetgroup_go n EmptyString = EmptyString) as ->
    by (by intros [|n]).
  by rewrite string_app_nil_r.
Qed.

Lemma re_sub_targetgroup_drops_digit_witness :
  re_sub_targetgroup ("polio" +:+ String "2" "_targetgroup") = "polio_targetgroup"
  ∧ rename_child_cov "Polio 1st dose_targetgroup" = "child_coverage_polio_target_group"
  ∧ rename_child_cov "Polio 3rd dose_targetgroup" = "child_coverage_polio_target_group".
Proof.
  split; [|split].
  - apply (re_sub_targetgroup_drops_digit "polio" "2"); [discriminate|reflexivity..].
  - by_computation.
  - by_computation.
Defined.

(** ** What a category pass leaves alone *)




(** ** The order of the loop of [generateLastVisitDate] *)

Lemma string_ltb_leb (a b : string) : String.ltb a b = negb (String.leb b a).
Proof.
  unfold String.ltb, String.leb. rewrite (String.compare_antisym a b).
  by destruct (String.compare b a).
Qed.

Lemma string_ltb_negtrans (x y z : string) :
  String.ltb z x = true → String.ltb z y = true ∨ String.ltb y x = true.
Proof.
  rewrite !string_ltb_leb. intros Hzx.
  destruct (String.leb y z) eqn:Hyz; [|by left].
  destruct (String.leb x y) eqn:Hxy; [|by right].
  assert (String.le x z) as Hxz.
  { transitivity y; unfold String.le; [by rewrite Hxy|by rewrite Hyz]. }
  unfold String.le in Hxz. by destruct (String.leb x z).
Qed.

Lemma value_ltb_asym (a b : value) : value_ltb a b = true → value_ltb b a = false.
Proof.
  destruct a, b; simpl; try done.
  - intros H. apply Z.ltb_lt in H. apply Z.ltb_ge. lia.
  - rewrite !string_ltb_leb. intros H.
    destruct (String.leb_total s s0) as [H1|H1]; rewrite H1 in *; done.
  - intros H. apply Z.ltb_lt in H. apply Z.ltb_ge. lia.
Qed.

Lemma value_ltb_negtrans (x y z : value) :
  is_date y = is_date x → is_date z = is_date x →
  value_ltb z x = true → value_ltb z y = true ∨ value_ltb y x = true.
Proof.
  destruct x, y, z; simpl; try done; auto.
  - intros _ _ H. apply Z.ltb_lt in H.
    destruct (Z.ltb_spec n1 n0); [by left|right]. apply Z.ltb_lt. lia.
  - intros _ _. apply string_ltb_negtrans.
  - intros _ _ H. apply Z.ltb_lt in H.
    destruct (Z.ltb_spec d1 d0); [by left|right]. apply Z.ltb_lt. lia.
Qed.

Lemma insert_by_key_ordered (x : value * nat) (l : list (value * nat)) :
  ordered l →
  Forall (λ y, (x.2 < y.2)%nat ∧ is_date y.1 = is_date x.1) l →
  ordered (insert_by_key x l).
Proof.
  induction l as [|y l IH]; intros Hord Hall; [by split|].
  destruct Hord as [Hy Hord]. apply Forall_cons in Hall as [[Hidx Hkind] Hall].
  simpl. destruct (value_ltb y.1 x.1) eqn:Hyx.
  - split; [|by apply IH]. rewrite insert_by_key_perm.
    constructor; [|done]. split; [by apply value_ltb_asym|]. by rewrite Hyx.
  - split; [|by split]. constructor; [by split|].
    rewrite Forall_forall in Hy, Hall |- *. intros z Hz.
    destruct (Hall z Hz) as [Hzi Hzk]. destruct (Hy z Hz) as [Hzy _].
    split; [|done]. destruct (value_ltb z.1 x.1) eqn:Hzx; [|done].
    destruct (value_ltb_negtrans x.1 y.1 z.1) as [H|H]; congruence.
Qed.

Lemma sorted_decorated_ordered (b : bool) (ks : list value) :
  Forall (λ k, is_date k = b) ks →
  ∀ start,
    ordered (foldr insert_by_key [] (zip ks (seq start (length ks))))
    ∧ Forall (λ y, (start ≤ y.2)%nat ∧ is_date y.1 = b)
        (foldr insert_by_key [] (zip ks (seq start (length ks)))).
Proof.
  induction 1 as [|k ks Hk Hks IH]; intros start; [by split|].
  simpl. destruct (IH (S start)) as [Hord Hall]. split.
  - apply insert_by_key_ordered; [done|].
    eapply Forall_impl; [exact Hall|]. simpl. intros y [? ?]. split; [lia|congruence].
  - rewrite insert_by_key_perm. constructor; [by split|].
    eapply Forall_impl; [exact Hall|]. simpl. intros y [? ?]. split; [lia|done].
Qed.

Lemma ordered_lookup (l : list (value * nat)) (p q : nat) (x y : value * nat) :
  ordered l → (p < q)%nat → l !! p = Some x → l !! q = Some y → may_precede x y.
Proof.
  revert p q. induction l as [|z l IH]; intros p q Hord Hpq Hp Hq; [done|].
  destruct Hord as [Hz Hord].
  destruct q as [|q]; [lia|]. destruct p as [|p].
  - injection Hp as ->. rewrite Forall_forall in Hz. apply Hz.
    by eapply list_elem_of_lookup_2.
  - apply (IH p q); [done|lia|done..].
Qed.

Lemma keys_comparable_kind (ks : list value) :
  keys_comparable ks = true → ∃ b, Forall (λ k, is_date k = b) ks.
Proof.
  unfold keys_comparable. intros [H|H]%orb_true_iff.
  - exists true. apply Forall_forall. intros k Hk.
    rewrite forallb_forall in H. by apply H, list_elem_of_In.
  - exists false. apply Forall_forall. intros k Hk.
    rewrite forallb_forall in H. apply negb_true_iff. by apply H, list_elem_of_In.
Qed.

Lemma sorted_decorated_keys (ks : list value) (k : value) (i : nat) :
  (k, i) ∈ foldr insert_by_key [] (zip ks (seq 0 (length ks))) → ks !! i = Some k.
Proof.
  assert (∀ l : list (value * nat), foldr insert_by_key [] l ≡ₚ l) as Hperm.
  { induction l as [|x l IH]; [done|]. simpl. by rewrite insert_by_key_perm, IH. }
  rewrite Hperm. intros [n Hn]%list_elem_of_lookup.
  apply lookup_zip_with_Some in Hn as (k' & i' & [= -> ->] & Hk & Hi).
  apply lookup_seq in Hi as [-> _]. done.
Qed.

Lemma visit_codes_lookup (visitRows : list row) (i : nat) (r : row) :
  Forall (λ r, is_Some (r !! "visit_code")) visitRows →
  visitRows !! i = Some r → visit_codes visitRows !! i = r !! "visit_code".
Proof.
  intros Hall. revert i. induction Hall as [|r0 rows [k Hk] _ IH]; intros i Hi; [done|].
  unfold visit_codes in *. simpl. rewrite Hk. destruct i as [|i]; simpl in *.
  - by injection Hi as ->.
  - by apply IH.
Qed.

(** X20: the loop handles the rows in ascending order of [visit_code],
    and rows of equal [visit_code] in the order of the caller's list
    (the sort is stable): of two rows handled one after the other, the
    later one has no smaller key, and on equal keys it stands later in
    the list. *)
Theorem chronological_ascending_stable
    (visitRows : list row) (p q i j : nat) (ri rj : row) (ki kj : value) :
  Forall (λ r, is_Some (r !! "visit_code")) visitRows →
  keys_comparable (visit_codes visitRows) = true →
  (p < q)%nat →
  chronological visitRows !! p = Some i → chronological visitRows !! q = Some j →
  visitRows !! i = Some ri → visitRows !! j = Some rj →
  ri !! "visit_code" = Some ki → rj !! "visit_code" = Some kj →
  value_ltb kj ki = false ∧ (value_ltb ki kj = false → (i < j)%nat).
Proof.
  intros Hall Hcmp Hpq Hp Hq Hi Hj Hki Hkj.
  destruct (keys_comparable_kind _ Hcmp) as [b Hkind].
  destruct (sorted_decorated_ordered b _ Hkind 0) as [Hord _].
  unfold chronological, sorted_positions in Hp, Hq.
  rewrite list_lookup_fmap in Hp, Hq.
  destruct (foldr insert_by_key [] _ !! p) as [[k1 i1]|] eqn:Hp'; [|done].
  destruct (foldr insert_by_key [] _ !! q) as [[k2 i2]|] eqn:Hq'; [|done].
  simpl in Hp, Hq. injection Hp as ->. injection Hq as ->.
  pose proof (ordered_lookup _ p q _ _ Hord Hpq Hp' Hq') as [Hle Htie].
  apply list_elem_of_lookup_2, sorted_decorated_keys in Hp'.
  apply list_elem_of_lookup_2, sorted_decorated_keys in Hq'.
  rewrite (visit_codes_lookup _ _ _ Hall Hi), Hki in Hp'.
  rewrite (visit_codes_lookup _ _ _ Hall Hj), Hkj in Hq'.
  injection Hp' as <-. injection Hq' as <-. by split.
Qed.

Lemma chronological_ascending_stable_witness :
  value_ltb (VStr "F9-2014-06") (VStr "F9-2014-04") = false
  ∧ (value_ltb (VStr "F9-2014-04") (VStr "F9-2014-06") = false → (1 < 0)%nat).
Proof.
  apply (chronological_ascending_stable visit_history 0 2 1 0 visit_p1 visit_p3).
  - repeat (apply Forall_cons_2; [by eexists|]). apply Forall_nil_2.
  - by_computation.
  - lia.
  - by_computation.
  - by_computation.
  - reflexivity.
  - reflexivity.
  - reflexivity.
  - reflexivity.
Defined.

(** ** When the five passes complete *)

Lemma pivot_succeeds_iff (inp : category_inputs) (c : category) :
  pivot_succeeds inp c
  ↔ ∀ pid e, lineItemTable inp c !! pid = Some e → entry_ok (category_keyColName c) e.
Proof.
  unfold pivot_succeeds. split.
  - intros Hrun pid e Hpe. unfold pivotLineItems in Hrun.
    pose proof (pivot_items_Ok_inv _ _ _ _ _ _ _ Hrun) as Hall.
    rewrite Forall_forall in Hall. by apply (Hall (pid, e)), elem_of_map_to_list.
  - intros Hok.
    destruct (pivot_items_ok (category_keyColName c) (distinctCodes inp c)
                (category_cols c) (Some (category_rename c))
                (map_to_list (lineItemTable inp c)) ∅) as (pivotD & Hrun & _).
    + apply NoDup_fst_map_to_list.
    + apply Forall_forall. intros [pid e] Hpe%elem_of_map_to_list. by eapply Hok.
    + assert (pivotLineItems (lineItemTable inp c) (category_keyColName c)
                (distinctCodes inp c) (Some (category_cols c))
                (Some (category_rename c)) = Ok pivotD) as Hrun' by exact Hrun.
      rewrite Hrun'. f_equal. by apply pivotLineItems_Ok_shape in Hrun'.
Qed.

Lemma id_present_category_pivot (inp : category_inputs) (c : category) (r : row) :
  id_present (category_pivot inp c) r
  ↔ ∃ fvId, r !! "id" = Some fvId ∧ is_Some (lineItemTable inp c !! fvId).
Proof.
  unfold id_present, category_pivot. split.
  - intros (fvId & cols & Hid & Hc). exists fvId. split; [done|].
    rewrite lookup_fmap in Hc. by destruct (lineItemTable inp c !! fvId).
  - intros (fvId & Hid & [e He]). exists fvId. eexists. split; [done|].
    by rewrite lookup_fmap, He.
Qed.

(** X21: the five passes of [loadOpenLmis] all complete exactly when, in
    each of the five categories, every entry of the item table passes
    the strict inner build and every visit row has an id with an entry in
    the item table: a visit without line items in one category stops the
    run. *)
Theorem run_passes_completes_iff (inp : category_inputs) (facVisitRows : list row) :
  (∃ rows', run_passes inp loadOpenLmis_order facVisitRows = (rows', Ok tt))
  ↔ ∀ c,
      (∀ pid e, lineItemTable inp c !! pid = Some e →
                entry_ok (category_keyColName c) e)
      ∧ Forall (λ r, ∃ fvId, r !! "id" = Some fvId
                             ∧ is_Some (lineItemTable inp c !! fvId)) facVisitRows.
Proof.
  assert (∀ c, c ∈ loadOpenLmis_order) as Hall.
  { intros c. unfold loadOpenLmis_order.
    destruct c; repeat first [by left | right]. }
  assert (∀ c, Forall (id_present (category_pivot inp c)) facVisitRows
               ↔ Forall (λ r, ∃ fvId, r !! "id" = Some fvId
                                      ∧ is_Some (lineItemTable inp c !! fvId))
                   facVisitRows) as Hids.
  { intros c. apply Forall_proper; [|done]. intros r. apply id_present_category_pivot. }
  split.
  - intros [rows' Hrun]. apply run_passes_Ok in Hrun as [Hcs _]. intros c.
    destruct (Hcs c (Hall c)) as [Hp Hr]. split; [by apply pivot_succeeds_iff|by apply Hids].
  - intros Hcs. eexists. apply run_passes_Ok. split; [|done].
    intros c _. destruct (Hcs c) as [Hp Hr].
    split; [by apply pivot_succeeds_iff|by apply Hids].
Qed.
